(** * Grid-world policy evaluation by dynamic programming

    A shallow embedding of the class [GridWorldSolver] of the notebook
    [Reinforcement Learning/grid_world_dynamic_programming.ipynb] and the
    properties of its methods [v_pi], [iterate], [calc_mini_gridworld] and
    [add_arrows].

    State values are numpy [float64] numbers, modelled by the kernel's
    binary64 floats, so that every arithmetic step rounds as it does in the
    notebook.  The solver object is mutated in place; methods are
    computations in a state-and-exception monad over the solver record. *)

From Stdlib Require Import Floats ZArith Lia String Ascii.
From stdpp Require Import base option list.

Set Warnings "-inexact-float".

Local Open Scope string_scope.
Local Open Scope nat_scope.
Local Open Scope list_scope.

(** ** Python values *)

(** The exceptions the methods can raise. *)
Inductive exn : Set :=
  | IndexError   (* an index outside an axis, or too many indices *)
  | ValueError   (* [max] of an empty sequence, truth value of an array *)
  | NameError    (* a local variable read before it was bound *)
  | TypeError.   (* [None] compared with a number *)

Inductive outcome (A : Type) : Type :=
  | Return (a : A)
  | Raise (e : exn).
Arguments Return {A} a.
Arguments Raise {A} e.

(** A two-dimensional [float64] array, as its list of rows. *)
Abbreviation ndarray := (list (list float)).

(** [a.shape[0]] and [a.shape[1]]. *)
Definition shape0 (a : ndarray) : nat := length a.
Definition shape1 (a : ndarray) : nat :=
  match a with
  | [] => 0
  | row :: _ => length row
  end.

(** [np.zeros((n, m))]. *)
Definition zeros (n m : nat) : ndarray := replicate n (replicate m 0%float).

(** [a[i, j]] for non-negative integers [i] and [j]; [None] stands for the
    [IndexError] of an index outside its axis. *)
Definition getitem (a : ndarray) (c : nat * nat) : option float :=
  row ← a !! c.1; row !! c.2.

(** The array after [a[i, j] = v], for an index inside the array. *)
Definition setitem (a : ndarray) (c : nat * nat) (v : float) : ndarray :=
  alter (λ row, <[c.2 := v]> row) c.1 a.

(** ** The solver object *)

(** The attributes set by [__init__]. The numeric parameters [rewards],
    [gamma] and [theta] are taken as [float64], which is what the arithmetic
    of [v_pi] and the comparisons of [calc_mini_gridworld] turn them into. *)
Record GridWorldSolver : Type := mkSolver {
  r : float;
  world : ndarray;
  g : float;
  theta : float;
  terminals : string;
  iterations : Z
}.

Definition init (rewards : float) (world_size : nat * nat) (gamma theta : float)
    (terminals : string) (iterations : Z) : GridWorldSolver :=
  {| r := rewards;
     world := zeros world_size.1 world_size.2;
     g := gamma;
     theta := theta;
     terminals := terminals;
     iterations := iterations |}.

(** [GridWorldSolver()] with every default, and the keyword arguments
    [terminals] and [iterations] that [main] passes on. *)
Definition default_solver (terminals : string) (iterations : Z) : GridWorldSolver :=
  init (-1)%float (4, 4) 1%float 1e-5%float terminals iterations.

Definition set_world (w : ndarray) (s : GridWorldSolver) : GridWorldSolver :=
  {| r := r s; world := w; g := g s; theta := theta s;
     terminals := terminals s; iterations := iterations s |}.

(** ** Methods as computations on the object *)

(** A method body: it runs on the object, returns or raises, and leaves the
    object as it has mutated it until then. *)
Definition py (A : Type) : Type := GridWorldSolver → outcome A * GridWorldSolver.

#[global] Instance py_ret : MRet py := λ A a s, (Return a, s).
#[global] Instance py_bind : MBind py := λ A B f m s,
  match m s with
  | (Return a, s') => f a s'
  | (Raise e, s') => (Raise e, s')
  end.

Definition self : py GridWorldSolver := λ s, (Return s, s).
Definition raise {A} (e : exn) : py A := λ s, (Raise e, s).

(** [self.world[c]] *)
Definition read_world (c : nat * nat) : py float := λ s,
  match getitem (world s) c with
  | Some v => (Return v, s)
  | None => (Raise IndexError, s)
  end.

(** [self.world[c] = v] *)
Definition write_world (c : nat * nat) (v : float) : py unit := λ s,
  match getitem (world s) c with
  | Some _ => (Return (), set_world (setitem (world s) c v) s)
  | None => (Raise IndexError, s)
  end.

(** [for x in xs: body x] *)
Fixpoint for_each {A} (xs : list A) (body : A → py unit) : py unit :=
  match xs with
  | [] => mret ()
  | x :: xs' => body x;; for_each xs' body
  end.

(** [range(n)] *)
Definition range (n : nat) : list nat := seq 0 n.

(** *** [v_pi] *)

Definition d : list string := ["up"; "down"; "left"; "right"].

(** [1/len(d)] *)
Definition inv_len_d : float :=
  (1 / PrimFloat.of_uint63 (Uint63.of_Z (Z.of_nat (length d))))%float.

(** The loop of [v_pi], with the running [total]. *)
Fixpoint v_pi_loop (directions : list (nat * nat)) (total : float) : py float :=
  match directions with
  | [] => mret total
  | direction :: rest =>
      s ← self;
      v ← read_world direction;
      let single_dir := (inv_len_d * (r s + g s * v))%float in
      v_pi_loop rest (total + single_dir)%float
  end.

Definition v_pi (directions : list (nat * nat)) : py float :=
  v_pi_loop directions 0%float.

(** *** [iterate] *)

(** The test of the first branch: the cell is the last one of the grid. *)
Definition is_last (a : ndarray) (i j : nat) : bool :=
  bool_decide (Z.of_nat i = Z.of_nat (shape0 a) - 1)%Z
  && bool_decide (Z.of_nat j = Z.of_nat (shape1 a) - 1)%Z.

(** The test of the second branch: the first cell, when it is terminal. *)
Definition is_first (term : string) (i j : nat) : bool :=
  (bool_decide (i = 0) && bool_decide (j = 0)) && String.eqb term "first_and_last".

(** The four moves from [(i, j)]; a move off the grid stays in place. *)
Definition directions_of (a : ndarray) (i j : nat) : list (nat * nat) :=
  let up := if bool_decide (Z.of_nat i - 1 < 0)%Z then i else i - 1 in
  let down := if bool_decide (Z.of_nat i + 1 > Z.of_nat (shape0 a) - 1)%Z then i else i + 1 in
  let left := if bool_decide (Z.of_nat j - 1 < 0)%Z then j else j - 1 in
  let right := if bool_decide (Z.of_nat j + 1 > Z.of_nat (shape1 a) - 1)%Z then j else j + 1 in
  [(up, j); (down, j); (i, left); (i, right)].

(** The body of the two nested loops. *)
Definition update_cell (i j : nat) : py unit :=
  s ← self;
  if is_last (world s) i j then mret ()
  else if is_first (terminals s) i j then mret ()
  else
    v ← v_pi (directions_of (world s) i j);
    write_world (i, j) v.

Definition sweep : py unit :=
  s ← self;
  for_each (range (shape0 (world s))) (λ i,
    s ← self;
    for_each (range (shape1 (world s))) (λ j, update_cell i j)).

(** [a.reshape(1, -1)]: the single row of all cells in row-major order. *)
Definition reshape_row (a : ndarray) : list float := concat a.

(** What [np.squeeze] makes of an array of shape [(1, n)]: a 0-dimensional
    array when [n = 1], a vector of length [n] otherwise. *)
Inductive squeezed : Type :=
  | Scalar0 (x : float)
  | Vector (xs : list float).

Definition squeeze (row : list float) : squeezed :=
  match row with
  | [x] => Scalar0 x
  | _ => Vector row
  end.

(** [a[1:]]: a 0-dimensional array takes no index. *)
Definition slice_from_1 (a : squeezed) : outcome (list float) :=
  match a with
  | Scalar0 _ => Raise IndexError
  | Vector xs => Return (tail xs)
  end.

(** The builtin [max] over a sequence: the first element, replaced by each
    later one that compares greater. *)
Definition py_max (xs : list float) : outcome float :=
  match xs with
  | [] => Raise ValueError
  | x :: rest => Return (fold_left (λ m y, if (m <? y)%float then y else m) rest x)
  end.

(** [abs(w_flat - tmp_flat)] *)
Definition abs_sub (w_flat tmp_flat : list float) : list float :=
  zip_with (λ x y, abs (x - y)%float) w_flat tmp_flat.

(** The last four lines of [iterate], for the grid before the sweep. *)
Definition delta_of (w tmp_world : ndarray) : outcome float :=
  match slice_from_1 (squeeze (reshape_row w)) with
  | Raise e => Raise e
  | Return w_flat =>
      match slice_from_1 (squeeze (reshape_row tmp_world)) with
      | Raise e => Raise e
      | Return tmp_flat => py_max (abs_sub w_flat tmp_flat)
      end
  end.

(** [iterate] returns the delta, or [None] when the number of iterations is
    fixed. *)
Definition iterate : py (option float) :=
  s0 ← self;
  let tmp_world := world s0 in
  sweep;;
  s ← self;
  if bool_decide (iterations s = 0%Z) then
    match delta_of (world s) tmp_world with
    | Return delta => mret (Some delta)
    | Raise e => raise e
    end
  else mret None.

(** *** [calc_mini_gridworld] *)

(** The [while] loop of the convergence branch, with the current [delta] and
    counter [i]. It has no bound in the notebook: [fuel] bounds the number of
    turns here, and [None] says the fuel ran out. *)
Fixpoint converge (fuel : nat) (delta : float) (i : nat)
    (s : GridWorldSolver) : option (outcome nat * GridWorldSolver) :=
  if (theta s <? delta)%float then
    match fuel with
    | 0 => None
    | S fuel' =>
        match iterate s with
        | (Raise e, s') => Some (Raise e, s')
        | (Return None, s') => Some (Raise TypeError, s')
        | (Return (Some delta'), s') =>
            let i' := i + 1 in
            if (delta' <? theta s')%float then Some (Return i', s')
            else converge fuel' delta' i' s'
        end
    end
  else Some (Return i, s).

(** The [for] loop of the fixed branch; it returns the last value bound to
    [i], if any. *)
Fixpoint repeat_iterate (ks : list nat) (i : option nat) : py (option nat) :=
  match ks with
  | [] => mret i
  | k :: rest => iterate;; repeat_iterate rest (Some k)
  end.

(** [calc_mini_gridworld] returns [self.world] after printing
    "Iterations completed : <i+1>"; the result pairs the grid with the
    number printed. *)
Definition calc_mini_gridworld (fuel : nat)
    (s : GridWorldSolver) : option (outcome (ndarray * nat) * GridWorldSolver) :=
  let delta := infinity in
  if bool_decide (iterations s ≠ 0%Z) then
    match repeat_iterate (range (Z.to_nat (iterations s))) None s with
    | (Raise e, s') => Some (Raise e, s')
    | (Return None, s') => Some (Raise NameError, s')
    | (Return (Some i), s') => Some (Return (world s', i + 1), s')
    end
  else
    match converge fuel delta 0 s with
    | None => None
    | Some (Raise e, s') => Some (Raise e, s')
    | Some (Return i, s') => Some (Return (world s', i + 1), s')
    end.

(** *** [add_arrows] *)

(** What indexing a two-dimensional array with a pair yields: a number when
    both indices are integers, an array with a new axis when one of them is
    [None] (numpy reads [None] as [np.newaxis]); of such an array only the
    elements matter below. *)
Inductive item : Type :=
  | Num (x : float)
  | Arr (xs : list float).

(** [a[k0, k1]] for indices that are a non-negative integer or [None]. The
    integer beside a [None] selects a row, whichever of the two places it
    stands in. *)
Definition getitem_opt (a : ndarray) (k0 k1 : option nat) : outcome item :=
  match k0, k1 with
  | Some i, Some j =>
      match getitem a (i, j) with
      | Some v => Return (Num v)
      | None => Raise IndexError
      end
  | None, Some k | Some k, None =>
      match a !! k with
      | Some row => Return (Arr row)
      | None => Raise IndexError
      end
  | None, None => Return (Arr (concat a))
  end.

(** The truth value of [x > y] in an [if]: of an array with one element it
    is that element's, of a larger array it is a [ValueError], and an empty
    array is not true. *)
Definition gt_truth (x : item) (y : float) : outcome bool :=
  match x with
  | Num v => Return (y <? v)%float
  | Arr [v] => Return (y <? v)%float
  | Arr [] => Return false
  | Arr _ => Raise ValueError
  end.

(** The glyph appended at position [k] of [directions]. *)
Definition glyph (k : nat) : string :=
  match k with
  | 0 => "^"
  | 1 => "v"
  | 2 => "<"
  | 3 => ">"
  | _ => ""
  end.

(** One turn of the loop over [enumerate(directions)]; the bare [except]
    swallows whatever the test raises. *)
Definition add_action (grid_world : ndarray) (i j : nat) (actions : string)
    (kd : nat * (option nat * option nat)) : string :=
  let '(k, direction) := kd in
  let test :=
    match getitem_opt grid_world direction.1 direction.2 with
    | Raise e => Raise e
    | Return x =>
        match getitem grid_world (i, j) with
        | Some y => gt_truth x y
        | None => Raise IndexError
        end
    end in
  match test with
  | Return true =>
      let actions := (actions ++ glyph k)%string in
      if bool_decide (String.length actions = 1) then (actions ++ " ")%string else actions
  | _ => actions
  end.

(** [enumerate(xs)] *)
Definition enumerate {A} (xs : list A) : list (nat * A) := imap pair xs.

(** Storing a string in an array of dtype ['<U2'] keeps its first two
    characters. *)
Definition store_U2 (s : string) : string := substring 0 2 s.

(** The string [actions] that the loop over the directions of a
    non-terminal cell [(i, j)] builds. *)
Definition cell_actions (grid_world : ndarray) (i j : nat) : string :=
  let up := if bool_decide (Z.of_nat i - 1 < 0)%Z then None else Some (i - 1) in
  let down :=
    if bool_decide (Z.of_nat i + 1 > Z.of_nat (shape0 grid_world) - 1)%Z
    then None else Some (i + 1) in
  let left := if bool_decide (Z.of_nat j - 1 < 0)%Z then None else Some (j - 1) in
  let right :=
    if bool_decide (Z.of_nat j + 1 > Z.of_nat (shape1 grid_world) - 1)%Z
    then None else Some (j + 1) in
  let directions := [(up, Some j); (down, Some j); (Some i, left); (Some i, right)] in
  fold_left (add_action grid_world i j) (enumerate directions) "".

(** The value that [action_world[i, j]] holds after its assignment. *)
Definition action_cell (s : GridWorldSolver) (grid_world : ndarray) (i j : nat) : string :=
  if is_last (world s) i j then store_U2 "G"
  else if is_first (terminals s) i j then store_U2 "G"
  else store_U2 (cell_actions grid_world i j).

(** [add_arrows] assigns every cell of [action_world] once, and touches
    nothing else: the array it returns holds [action_cell] at each index. *)
Definition add_arrows (s : GridWorldSolver) (grid_world : ndarray) : list (list string) :=
  (λ i, (λ j, action_cell s grid_world i j) <$> range (shape1 grid_world))
    <$> range (shape0 grid_world).

(** *** [main] *)

(** [np.rint] on one number: the nearest integer, a tie going to the even
    one; the sign is kept, also on a zero result, and an infinity or a NaN
    comes back as it is. A finite number is [mantissa * 2 ^ exponent]. *)
Definition rint (x : float) : float :=
  match Prim2SF x with
  | S754_finite sign mantissa exponent =>
      if bool_decide (0 ≤ exponent)%Z then x
      else
        let unit := (2 ^ (- exponent))%Z in
        let whole := (Z.pos mantissa / unit)%Z in
        let rest := (Z.pos mantissa mod unit)%Z in
        let nearest :=
          if bool_decide (2 * rest < unit)%Z then whole
          else if bool_decide (2 * rest > unit)%Z then (whole + 1)%Z
          else if Z.even whole then whole else (whole + 1)%Z in
        let magnitude := PrimFloat.of_uint63 (Uint63.of_Z nearest) in
        if sign then (- magnitude)%float else magnitude
  | _ => x
  end.

(** [a.round(1)]: numpy multiplies each number by 10, rounds it to the
    nearest integer and divides it by 10; the result is a new array. *)
Definition round1 (x : float) : float := (rint (x * 10) / 10)%float.
Definition round_1 (a : ndarray) : ndarray := (λ row : list float, round1 <$> row) <$> a.

(** [main(terminals = ..., iterations = ...)] builds a solver with every
    other default and runs it; it prints [grid_world.round(1)] and then the
    diagram that [add_arrows] makes of [grid_world] itself, and returns
    nothing. The result here gathers what it prints: the number of
    iterations reported by [calc_mini_gridworld], the rounded grid, and the
    diagram. *)
Definition main (fuel : nat) (terminals : string) (iterations : Z)
    : option (outcome (nat * ndarray * list (list string))) :=
  let mini_grid_world := default_solver terminals iterations in
  match calc_mini_gridworld fuel mini_grid_world with
  | None => None
  | Some (Raise e, _) => Some (Raise e)
  | Some (Return (grid_world, reported), mini_grid_world') =>
      Some (Return (reported, round_1 grid_world,
                    add_arrows mini_grid_world' grid_world))
  end.

(** ** The vocabulary of the properties *)

(** The effect of one call of [iterate] on the object, whatever it returns,
    and of [k] calls in a row. *)
Definition sweep_state (s : GridWorldSolver) : GridWorldSolver := (iterate s).2.
Definition sweeps (k : nat) (s : GridWorldSolver) : GridWorldSolver :=
  Nat.iter k sweep_state s.

(** An array of shape [(n, m)]. *)
Definition rect (n m : nat) (a : ndarray) : Prop :=
  length a = n ∧ Forall (λ row, length row = m) a.

(** The value of a cell, read as a total function of the coordinate. *)
Definition value_at (a : ndarray) (c : nat * nat) : float :=
  default 0%float (getitem a c).

(** The four moves, and the coordinate each one aims at. *)
Inductive move : Set := Up | Down | Left | Right.

Definition attempt (c : nat * nat) (a : move) : Z * Z :=
  let i := Z.of_nat c.1 in
  let j := Z.of_nat c.2 in
  match a with
  | Up => (i - 1, j)
  | Down => (i + 1, j)
  | Left => (i, j - 1)
  | Right => (i, j + 1)
  end%Z.

Definition in_grid (n m : nat) (p : Z * Z) : bool :=
  bool_decide (0 ≤ p.1 < Z.of_nat n)%Z && bool_decide (0 ≤ p.2 < Z.of_nat m)%Z.

(** The state a move leads to: an attempt to leave the grid resolves to the
    original coordinate. *)
Definition neighbor (n m : nat) (c : nat * nat) (a : move) : nat * nat :=
  let p := attempt c a in
  if in_grid n m p then (Z.to_nat p.1, Z.to_nat p.2) else c.

(** [Q(s,a) = step_reward + discount * V(neighbor_after_a)], for a value
    function [V]. *)
Definition Q (s : GridWorldSolver) (V : nat * nat → float) (n m : nat)
    (c : nat * nat) (a : move) : float :=
  (r s + g s * V (neighbor n m c a))%float.

(** The Bellman expectation under the uniform policy: the sum over the four
    moves of [(1/4) * Q(s,a)], added left to right from 0. *)
Definition expectation (s : GridWorldSolver) (V : nat * nat → float) (n m : nat)
    (c : nat * nat) : float :=
  (0 + 0.25 * Q s V n m c Up + 0.25 * Q s V n m c Down
     + 0.25 * Q s V n m c Left + 0.25 * Q s V n m c Right)%float.

(** The terminal cells of a grid of shape [(n, m)]: the bottom-right one,
    and the top-left one when [terminals] is ["first_and_last"]. *)
Definition terminal (term : string) (n m : nat) (c : nat * nat) : bool :=
  bool_decide (c = (n - 1, m - 1))
  || (bool_decide (c = (0, 0)) && String.eqb term "first_and_last").

(** [before c' c]: cell [c'] comes before [c] in row-major order. *)
Definition before (c' c : nat * nat) : bool :=
  bool_decide (c'.1 < c.1 ∨ (c'.1 = c.1 ∧ c'.2 < c.2)).

(** What the update of cell [c] reads at [c'] during an in-place sweep in
    row-major order from [old] to [new]: the new value of a cell that comes
    before [c], the old value of any other. *)
Definition seen_by (old new : ndarray) (c c' : nat * nat) : float :=
  if before c' c then value_at new c' else value_at old c'.

(** The coordinates of a grid of shape [(n, m)] in row-major order. *)
Definition cells (n m : nat) : list (nat * nat) :=
  i ← range n; pair i <$> range m.

(** The largest absolute change between two grids over a list of cells, as
    Python's [max] finds it. *)
Definition max_abs_change (new old : ndarray) (cs : list (nat * nat)) : outcome float :=
  py_max ((λ c, abs (value_at new c - value_at old c)%float) <$> cs).

(** Python's [x == y] on the values of two cells. *)
Definition cells_equal (a : ndarray) (c c' : nat * nat) : bool :=
  (value_at a c =? value_at a c')%float.

(** The number of directional glyphs in an overlay cell. *)
Definition is_arrow (ch : ascii) : bool :=
  existsb (Ascii.eqb ch) ["^"; "v"; "<"; ">"]%char.
Definition count_arrows (cell : string) : nat :=
  length (filter (λ ch, is_arrow ch = true) (list_ascii_of_string cell)).

(** The number of moves from [c] that lead to another cell of the grid whose
    value is strictly greater than the value of [c]. *)
Definition greater_neighbors (a : ndarray) (n m : nat) (c : nat * nat) : nat :=
  length (filter
    (λ mv, in_grid n m (attempt c mv) = true
           ∧ (value_at a c <? value_at a (neighbor n m c mv))%float = true)
    [Up; Down; Left; Right]).

(** The state of the grid when the sweep from [s0] stands at cell [k]: the
    non-terminal cells before [k] hold their new value, computed from the
    grid as the sweep had left it then, and every other cell still holds the
    value it had in [s0]. *)
Definition swept (s0 : GridWorldSolver) (n m : nat) (k : nat * nat) (w : ndarray) : Prop :=
  rect n m w ∧
  ∀ c, c.1 < n → c.2 < m →
    value_at w c =
      if before c k && negb (terminal (terminals s0) n m c)
      then expectation s0 (seen_by (world s0) w c) n m c
      else value_at (world s0) c.

(** The object with another threshold. *)
Definition set_theta (t : float) (s : GridWorldSolver) : GridWorldSolver :=
  {| r := r s; world := world s; g := g s; theta := t;
     terminals := terminals s; iterations := iterations s |}.

(** A computation that neither reads nor writes [self.theta]. *)
Definition theta_blind {A} (c : py A) : Prop :=
  ∀ t s, c (set_theta t s) = ((c s).1, set_theta t (c s).2).

(** Whether the delta that the next call of [iterate] returns is below the
    threshold, and these answers for [k] calls in a row. *)
Definition delta_below_theta (s : GridWorldSolver) : bool :=
  match (iterate s).1 with
  | Return (Some delta) => (delta <? theta s)%float
  | _ => false
  end.

Fixpoint below_trace (k : nat) (s : GridWorldSolver) : list bool :=
  match k with
  | 0 => []
  | S k' => delta_below_theta s :: below_trace k' (sweep_state s)
  end.

(** The grid that a run returns; empty when it raises or does not end. *)
Definition result_grid (x : option (outcome (ndarray * nat) * GridWorldSolver)) : ndarray :=
  match x with
  | Some (Return (w, _), _) => w
  | _ => []
  end.

(** ** The grids of the examples *)

(** The all-zero grid of shape [(3, 3)], with only the last cell terminal,
    a reward of -1 per step and no discount. *)
Definition grid3 : GridWorldSolver := init (-1)%float (3, 3) 1%float 1e-5%float "last" 0.

(** The grid returned by [main(terminals = 'first_and_last', iterations = 100)]
    (a run with a fixed number of iterations uses no fuel). *)
Definition grid100 : ndarray :=
  result_grid (calc_mini_gridworld 0 (default_solver "first_and_last" 100)).

(** A grid of shape [(2, 2)] whose values grow towards the last cell. *)
Definition slope2 : ndarray := [[-2; -1]; [-1; 0]]%float.

(** ** The vocabulary of the further properties *)

(** The sum that [v_pi] accumulates over the values read. *)
Definition weighted_sum (s : GridWorldSolver) (vs : list float) : float :=
  fold_left (λ total v, (total + 0.25 * (r s + g s * v))%float) vs 0%float.

(** Whether the delta that the next call of [iterate] returns is above the
    threshold (the test of the [while] loop), and these answers for [k]
    calls in a row. *)
Definition delta_above_theta (s : GridWorldSolver) : bool :=
  match (iterate s).1 with
  | Return (Some delta) => (theta s <? delta)%float
  | _ => false
  end.

Fixpoint above_trace (k : nat) (s : GridWorldSolver) : list bool :=
  match k with
  | 0 => []
  | S k' => delta_above_theta s :: above_trace k' (sweep_state s)
  end.

(** The glyph that [add_arrows] draws for a move. *)
Definition arrow (mv : move) : string :=
  match mv with
  | Up => "^"
  | Down => "v"
  | Left => "<"
  | Right => ">"
  end.

(** Whether a move from [c] leads to another cell of the grid, one whose
    value is strictly greater than the value of [c]. *)
Definition greater (a : ndarray) (n m : nat) (c : nat * nat) (mv : move) : bool :=
  in_grid n m (attempt c mv) && (value_at a c <? value_at a (neighbor n m c mv))%float.

(** The first such move, in the order up, down, left, right. *)
Definition first_greater (a : ndarray) (n m : nat) (c : nat * nat) : option move :=
  find (greater a n m c) [Up; Down; Left; Right].

(** The cell [(i, j)] of an overlay. *)
Definition overlay_at (overlay : list (list string)) (c : nat * nat) : option string :=
  row ← overlay !! c.1; row !! c.2.

(** Whether the test of one turn of the loop of [add_arrows] is true. *)
Definition arrow_test (grid_world : ndarray) (i j : nat)
    (direction : option nat * option nat) : bool :=
  match getitem_opt grid_world direction.1 direction.2 with
  | Raise _ => false
  | Return x =>
      match getitem grid_world (i, j) with
      | Some y => match gt_truth x y with Return true => true | _ => false end
      | None => false
      end
  end.

(** The grid on which the notebook's walkthrough ends. *)
Definition walkthrough : GridWorldSolver :=
  set_world [[0; 0; 0]; [0; -1.25; 0]; [0; -0.8125; 1]]%float grid3.

(** A grid of shape [(2, 2)] with a discount of 1/2 and a threshold of
    0.01. *)
Definition half2 : GridWorldSolver := init (-1)%float (2, 2) 0.5%float 0.01%float "last" 0.

(** The object with another number of iterations. *)
Definition set_iterations (z : Z) (s : GridWorldSolver) : GridWorldSolver :=
  {| r := r s; world := world s; g := g s; theta := theta s;
     terminals := terminals s; iterations := z |}.

(** A computation that runs the same under an update [f] of the object,
    which it carries along. *)
Definition commutes_with {A} (f : GridWorldSolver → GridWorldSolver) (c : py A) : Prop :=
  ∀ s, c (f s) = ((c s).1, f (c s).2).

(** * Properties *)

(** Unfolding the plumbing of the monad. *)
Ltac run_py := unfold mbind, py_bind, mret, py_ret, self, raise.

(** The shape of a given grid, by evaluation. *)
Ltac rect_by_evaluation := split; [reflexivity | repeat constructor].

(** ** Arrays *)

Lemma rect_zeros n m : rect n m (zeros n m).
Proof.
  split; [apply length_replicate|].
  apply Forall_replicate, length_replicate.
Qed.

Lemma rect_shape0 n m a : rect n m a → shape0 a = n.
Proof. by intros [? _]. Qed.

Lemma rect_shape1 n m a : rect n m a → 0 < n → shape1 a = m.
Proof.
  intros [Hn Hm] Hpos. destruct a as [|row a]; simpl in *; [lia|].
  by inversion Hm.
Qed.

Lemma rect_row n m a i row : rect n m a → a !! i = Some row → length row = m.
Proof.
  intros [_ Hm] Hi. rewrite Forall_lookup in Hm. by apply (Hm i).
Qed.

Lemma getitem_rect n m a c :
  rect n m a → c.1 < n → c.2 < m → is_Some (getitem a c).
Proof.
  intros Ha Hi Hj. unfold getitem.
  destruct (lookup_lt_is_Some_2 a c.1) as [row Hrow]; [by rewrite (proj1 Ha)|].
  rewrite Hrow. simpl. apply lookup_lt_is_Some_2.
  by rewrite (rect_row _ _ _ _ _ Ha Hrow).
Qed.

Lemma getitem_value_at n m a c :
  rect n m a → c.1 < n → c.2 < m → getitem a c = Some (value_at a c).
Proof.
  intros Ha Hi Hj. unfold value_at.
  by destruct (getitem_rect _ _ _ _ Ha Hi Hj) as [v ->].
Qed.

Lemma rect_setitem n m a c v : rect n m a → rect n m (setitem a c v).
Proof.
  intros [Hn Hm]. split; unfold setitem.
  - by rewrite length_alter.
  - apply Forall_alter; [done|]. intros row Hrow Hlen.
    rewrite Forall_lookup in Hm. rewrite length_insert. by apply (Hm c.1).
Qed.

Lemma getitem_setitem_eq n m a c v :
  rect n m a → c.1 < n → c.2 < m → getitem (setitem a c v) c = Some v.
Proof.
  intros Ha Hi Hj. unfold getitem, setitem.
  destruct (lookup_lt_is_Some_2 a c.1) as [row Hrow]; [by rewrite (proj1 Ha)|].
  rewrite list_lookup_alter_eq, Hrow. simpl.
  apply list_lookup_insert_eq. by rewrite (rect_row _ _ _ _ _ Ha Hrow).
Qed.

Lemma getitem_setitem_ne a c c' v :
  c ≠ c' → getitem (setitem a c v) c' = getitem a c'.
Proof.
  intros Hne. unfold getitem, setitem.
  destruct (decide (c.1 = c'.1)) as [Heq|Hrow].
  - rewrite Heq, list_lookup_alter_eq.
    destruct (a !! c'.1) as [row|]; simpl; [|done].
    apply list_lookup_insert_ne. intros Hcol. apply Hne.
    destruct c, c'; simpl in *; congruence.
  - by rewrite list_lookup_alter_ne.
Qed.

Lemma value_at_setitem_eq n m a c v :
  rect n m a → c.1 < n → c.2 < m → value_at (setitem a c v) c = v.
Proof. intros. unfold value_at. by erewrite getitem_setitem_eq. Qed.

Lemma value_at_setitem_ne a c c' v :
  c ≠ c' → value_at (setitem a c v) c' = value_at a c'.
Proof. intros. unfold value_at. by rewrite getitem_setitem_ne. Qed.

Lemma value_at_zeros n m c : value_at (zeros n m) c = 0%float.
Proof.
  unfold value_at, getitem, zeros.
  destruct (replicate n (replicate m 0%float) !! c.1) as [row|] eqn:Hrow; [|done].
  apply lookup_replicate in Hrow as [-> _]. simpl.
  destruct (replicate m 0%float !! c.2) as [v|] eqn:Hv; [|done].
  by apply lookup_replicate in Hv as [-> _].
Qed.

(** ** Moves *)

Lemma neighbor_in_grid n m c a :
  c.1 < n → c.2 < m → (neighbor n m c a).1 < n ∧ (neighbor n m c a).2 < m.
Proof.
  intros Hi Hj. unfold neighbor, in_grid.
  destruct a; simpl; repeat case_bool_decide; simpl; lia.
Qed.

Lemma directions_of_neighbors n m a i j :
  rect n m a → i < n → j < m →
  directions_of a i j =
  [neighbor n m (i, j) Up; neighbor n m (i, j) Down;
   neighbor n m (i, j) Left; neighbor n m (i, j) Right].
Proof.
  intros Ha Hi Hj. unfold directions_of.
  rewrite (rect_shape0 _ _ _ Ha), (rect_shape1 _ _ _ Ha) by lia.
  unfold neighbor, in_grid. simpl.
  repeat case_bool_decide; simpl; repeat f_equal; try lia.
Qed.

Lemma inv_len_d_quarter : inv_len_d = 0.25%float.
Proof. reflexivity. Qed.

(** ** [v_pi] *)

Lemma v_pi_four s c1 c2 c3 c4 v1 v2 v3 v4 :
  getitem (world s) c1 = Some v1 → getitem (world s) c2 = Some v2 →
  getitem (world s) c3 = Some v3 → getitem (world s) c4 = Some v4 →
  v_pi [c1; c2; c3; c4] s =
  (Return (0 + inv_len_d * (r s + g s * v1) + inv_len_d * (r s + g s * v2)
             + inv_len_d * (r s + g s * v3) + inv_len_d * (r s + g s * v4))%float, s).
Proof.
  intros H1 H2 H3 H4.
  unfold v_pi, v_pi_loop, read_world. run_py.
  by rewrite H1, H2, H3, H4.
Qed.

(** On the resolved neighbors of a cell [v_pi] computes the expectation
    from the grid, and returns the object as it got it. *)
Lemma v_pi_neighbors s n m c :
  rect n m (world s) → c.1 < n → c.2 < m →
  v_pi [neighbor n m c Up; neighbor n m c Down; neighbor n m c Left; neighbor n m c Right] s
  = (Return (expectation s (value_at (world s)) n m c), s).
Proof.
  intros Hw Hi Hj.
  assert (∀ a, getitem (world s) (neighbor n m c a)
               = Some (value_at (world s) (neighbor n m c a))) as Hget.
  { intros a. destruct (neighbor_in_grid n m c a); [done..|].
    by apply (getitem_value_at n m). }
  by rewrite (v_pi_four s _ _ _ _ _ _ _ _ (Hget Up) (Hget Down) (Hget Left) (Hget Right)).
Qed.

Lemma expectation_ext s V V' n m c :
  (∀ a, V (neighbor n m c a) = V' (neighbor n m c a)) →
  expectation s V n m c = expectation s V' n m c.
Proof. intros HV. unfold expectation, Q. by rewrite !HV. Qed.

(** ** Loops *)

(** The rule of the [for] loop over a range: an invariant indexed by the
    loop variable, which every turn that returns carries one step on. *)
Lemma for_each_seq_inv (I : nat → GridWorldSolver → Prop) body start len s :
  I start s →
  (∀ k s1, start ≤ k < start + len → I k s1 →
           ∃ s2, body k s1 = (Return (), s2) ∧ I (S k) s2) →
  ∃ s', for_each (seq start len) body s = (Return (), s') ∧ I (start + len) s'.
Proof.
  revert start s. induction len as [|len IH]; intros start s Hs Hbody; simpl.
  - exists s. by rewrite Nat.add_0_r.
  - destruct (Hbody start s) as (s2 & Hrun & Hs2); [lia|done|].
    destruct (IH (S start) s2) as (s' & Hrest & Hs'); [done| |].
    { intros k s1 Hk. apply Hbody. lia. }
    exists s'. split.
    + run_py. by rewrite Hrun.
    + by replace (start + S len) with (S start + len) by lia.
Qed.

(** ** The in-place sweep *)

Lemma before_irrefl c : before c c = false.
Proof. unfold before. case_bool_decide; [lia|done]. Qed.

Lemma before_trans c1 c2 c3 : before c1 c2 = true → before c2 c3 = true → before c1 c3 = true.
Proof. unfold before. intros. repeat case_bool_decide; try done. lia. Qed.

(** Moving the sweep one cell on adds that cell, and only that cell, to the
    cells that come before it. *)
Lemma before_step c i j : c ≠ (i, j) → before c (i, S j) = before c (i, j).
Proof.
  intros Hne. unfold before. simpl. apply bool_decide_ext.
  destruct c as [ci cj]; simpl. split; [|lia].
  intros [?|[-> ?]]; [lia|]. destruct (decide (cj = j)) as [->|]; [done|lia].
Qed.

Lemma before_step_self i j : before (i, j) (i, S j) = true.
Proof. unfold before. simpl. case_bool_decide; [done|lia]. Qed.

Lemma before_end n (c : nat * nat) : c.1 < n → before c (n, 0) = true.
Proof. intros. unfold before. simpl. case_bool_decide; [done|lia]. Qed.

Lemma bool_decide_pair (i j a b : nat) :
  bool_decide ((i, j) = (a, b)) = bool_decide (i = a) && bool_decide (j = b).
Proof. repeat case_bool_decide; simpl; try done; simplify_eq; done. Qed.

(** The two tests of [iterate] pick the terminal cells. *)
Lemma terminal_tests n m w term i j :
  rect n m w → i < n → j < m →
  is_last w i j || is_first term i j = terminal term n m (i, j).
Proof.
  intros Hw Hi Hj. unfold is_last, is_first, terminal.
  rewrite (rect_shape0 _ _ _ Hw), (rect_shape1 _ _ _ Hw) by lia.
  rewrite !bool_decide_pair.
  destruct (String.eqb term "first_and_last");
    repeat case_bool_decide; simpl; try done; lia.
Qed.

Lemma set_world_id s : set_world (world s) s = s.
Proof. by destruct s. Qed.

Section in_place_sweep.
(** A sweep that starts from the object [s0], whose grid has shape
    [(n, m)]. *)
Context (s0 : GridWorldSolver) (n m : nat).
Hypothesis Hshape : rect n m (world s0).

Lemma swept_start : swept s0 n m (0, 0) (world s0).
Proof.
  split; [done|]. intros c _ _.
  unfold before. case_bool_decide; simpl in *; [lia|done].
Qed.

Lemma swept_next_row i w : swept s0 n m (i, m) w → swept s0 n m (S i, 0) w.
Proof.
  intros [Hw Hc]. split; [done|]. intros c Hi Hj. rewrite (Hc c Hi Hj).
  assert (before c (i, m) = before c (S i, 0)) as ->; [|done].
  unfold before. simpl. apply bool_decide_ext. lia.
Qed.

(** A terminal cell is passed over. *)
Lemma swept_skip i j w :
  i < n → j < m → terminal (terminals s0) n m (i, j) = true →
  swept s0 n m (i, j) w → swept s0 n m (i, S j) w.
Proof.
  intros Hi Hj Hterm [Hw Hc]. split; [done|]. intros c Hci Hcj.
  rewrite (Hc c Hci Hcj). destruct (decide (c = (i, j))) as [->|Hne].
  - rewrite Hterm, before_irrefl. simpl. by rewrite andb_false_r.
  - by rewrite before_step.
Qed.

(** Any other cell takes the expectation over the grid as it stands. *)
Lemma swept_update i j w :
  i < n → j < m → terminal (terminals s0) n m (i, j) = false →
  swept s0 n m (i, j) w →
  swept s0 n m (i, S j)
    (setitem w (i, j) (expectation s0 (value_at w) n m (i, j))).
Proof.
  intros Hi Hj Hterm [Hw Hc].
  split; [by apply rect_setitem|]. intros c Hci Hcj.
  destruct (decide (c = (i, j))) as [->|Hne].
  - rewrite (value_at_setitem_eq n m) by done.
    rewrite Hterm, before_step_self. simpl.
    apply expectation_ext. intros a. unfold seen_by.
    destruct (neighbor_in_grid n m (i, j) a) as [Hni Hnj]; [done..|].
    destruct (before (neighbor n m (i, j) a) (i, j)) eqn:Hb.
    + rewrite value_at_setitem_ne; [done|]. intros Heq.
      by rewrite <-Heq, before_irrefl in Hb.
    + by rewrite (Hc _ Hni Hnj), Hb.
  - rewrite value_at_setitem_ne, before_step, (Hc c Hci Hcj) by done.
    destruct (before c (i, j)) eqn:Hb; [|done].
    destruct (terminal (terminals s0) n m c); [done|]. simpl.
    apply expectation_ext. intros a. unfold seen_by.
    destruct (before (neighbor n m c a) c) eqn:Hn; [|done].
    rewrite value_at_setitem_ne; [done|]. intros Heq. rewrite <-Heq in Hn.
    pose proof (before_trans _ _ _ Hn Hb) as Hcc. by rewrite before_irrefl in Hcc.
Qed.

(** The body of the loops carries the sweep from [(i, j)] to the next
    cell, and changes nothing of the object but the grid. *)
Lemma update_cell_swept i j w :
  i < n → j < m → swept s0 n m (i, j) w →
  ∃ w', update_cell i j (set_world w s0) = (Return (), set_world w' s0)
        ∧ swept s0 n m (i, S j) w'.
Proof.
  intros Hi Hj Hsw. pose proof (proj1 Hsw) as Hw.
  pose proof (terminal_tests n m w (terminals s0) i j Hw Hi Hj) as Hterm.
  unfold update_cell. run_py. simpl.
  destruct (is_last w i j) eqn:Hlast; simpl in Hterm.
  { exists w. split; [done|]. by apply swept_skip. }
  destruct (is_first (terminals s0) i j) eqn:Hfirst; simpl in Hterm.
  { exists w. split; [done|]. by apply swept_skip. }
  rewrite (directions_of_neighbors n m) by done.
  pose proof (v_pi_neighbors (set_world w s0) n m (i, j) Hw Hi Hj) as Hv.
  simpl in Hv. rewrite Hv. unfold write_world. simpl.
  destruct (getitem_rect n m w (i, j)) as [v0 ->]; [done..|].
  eexists. split; [done|]. by apply swept_update.
Qed.

(** The two loops never raise, and leave the grid swept to its end. *)
Lemma sweep_swept :
  ∃ w, sweep s0 = (Return (), set_world w s0) ∧ swept s0 n m (n, 0) w.
Proof.
  unfold sweep, mbind at 1, py_bind at 1, self at 1.
  rewrite (rect_shape0 _ _ _ Hshape). unfold range.
  destruct (for_each_seq_inv
    (λ i s, ∃ w, s = set_world w s0 ∧ swept s0 n m (i, 0) w)
    (λ i, s ← self; for_each (seq 0 (shape1 (world s))) (λ j, update_cell i j))
    0 n s0) as (s' & Hrun & w & -> & Hsw).
  - exists (world s0). split; [by rewrite set_world_id|]. apply swept_start.
  - intros i s1 Hi (w & -> & Hsw). run_py. simpl.
    rewrite (rect_shape1 _ _ _ (proj1 Hsw)) by lia.
    destruct (for_each_seq_inv
      (λ j s, ∃ w, s = set_world w s0 ∧ swept s0 n m (i, j) w)
      (λ j, update_cell i j) 0 m (set_world w s0))
      as (s2 & Hrun & w2 & -> & Hsw2).
    + by exists w.
    + intros j s1 Hj (w1 & -> & Hsw1).
      destruct (update_cell_swept i j w1) as (w' & Hrun & Hsw');
        [lia..|done|].
      exists (set_world w' s0). split; [done|]. by exists w'.
    + exists (set_world w2 s0). split; [done|].
      exists w2. split; [done|]. by apply swept_next_row.
  - exists w. by split.
Qed.
End in_place_sweep.

(** ** [iterate] *)

Lemma iterate_after_sweep s w :
  sweep s = (Return (), set_world w s) →
  iterate s =
  (if bool_decide (iterations s = 0%Z) then
     match delta_of w (world s) with
     | Return delta => Return (Some delta)
     | Raise e => Raise e
     end
   else Return None, set_world w s).
Proof.
  intros Hsw. unfold iterate, mbind, py_bind, self. rewrite Hsw. simpl.
  case_bool_decide; [|done]. by destruct (delta_of w (world s)).
Qed.

Lemma sweep_state_swept s n m :
  rect n m (world s) →
  ∃ w, sweep s = (Return (), set_world w s) ∧ sweep_state s = set_world w s
       ∧ swept s n m (n, 0) w.
Proof.
  intros Hw. destruct (sweep_swept s n m Hw) as (w & Hrun & Hsw).
  exists w. split; [done|]. split; [|done].
  unfold sweep_state. by rewrite (iterate_after_sweep s w Hrun).
Qed.

Lemma sweep_state_rect s n m : rect n m (world s) → rect n m (world (sweep_state s)).
Proof.
  intros Hw. destruct (sweep_state_swept s n m Hw) as (w & _ & -> & Hsw & _). done.
Qed.

Lemma sweep_state_terminal s n m c :
  rect n m (world s) → c.1 < n → c.2 < m →
  terminal (terminals s) n m c = true →
  value_at (world (sweep_state s)) c = value_at (world s) c.
Proof.
  intros Hw Hi Hj Hterm.
  destruct (sweep_state_swept s n m Hw) as (w & _ & -> & _ & Hc).
  simpl. by rewrite (Hc c Hi Hj), Hterm, andb_false_r.
Qed.

Lemma sweeps_S k s : sweeps (S k) s = sweep_state (sweeps k s).
Proof. done. Qed.

Lemma sweeps_rect k s n m :
  rect n m (world s) →
  rect n m (world (sweeps k s)) ∧ sweeps k s = set_world (world (sweeps k s)) s.
Proof.
  intros Hw. induction k as [|k [IHr IHc]].
  - split; [done|]. by rewrite set_world_id.
  - rewrite sweeps_S. split; [by apply sweep_state_rect|].
    destruct (sweep_state_swept _ n m IHr) as (w & _ & -> & _).
    unfold set_world. rewrite IHc. done.
Qed.

Lemma float_neq (x y : float) : (x =? y)%float = false → (y =? y)%float = true → x ≠ y.
Proof. intros Hxy Hyy ->. congruence. Qed.

(** ** The order of [float64] *)

Lemma SFltb_irrefl x : SFltb x x = false.
Proof.
  unfold SFltb. destruct x as [s| [] | |[] m e]; simpl; try done.
  - rewrite Z.compare_refl. change (Pos.compare_cont Eq m m) with (m ?= m)%positive.
    by rewrite Pos.compare_refl.
  - rewrite Z.compare_refl. change (Pos.compare_cont Eq m m) with (m ?= m)%positive.
    by rewrite Pos.compare_refl.
Qed.

Lemma SFltb_trans x y z : SFltb x y = true → SFltb y z = true → SFltb x z = true.
Proof.
  unfold SFltb.
  destruct x as [sx|[]| |[] mx ex], y as [sy|[]| |[] my ey], z as [sz|[]| |[] mz ez];
    simpl; try done;
    repeat match goal with
    | |- context [Pos.compare_cont Eq ?a ?b] =>
        change (Pos.compare_cont Eq a b) with (a ?= b)%positive
    end;
    destruct (Z.compare_spec ex ey), (Z.compare_spec ey ez), (Z.compare_spec ex ez);
    simpl; try done; try lia;
    destruct (Pos.compare_spec mx my), (Pos.compare_spec my mz), (Pos.compare_spec mx mz);
    simpl; try done; lia.
Qed.

Lemma ltb_irrefl (x : float) : (x <? x)%float = false.
Proof. rewrite ltb_spec. apply SFltb_irrefl. Qed.

Lemma ltb_trans (x y z : float) :
  (x <? y)%float = true → (y <? z)%float = true → (x <? z)%float = true.
Proof. rewrite !ltb_spec. apply SFltb_trans. Qed.

(** Python's [max] returns an element of the sequence that no element
    exceeds. *)
Lemma py_max_greatest xs top :
  py_max xs = Return top → top ∈ xs ∧ ∀ x, x ∈ xs → (top <? x)%float = false.
Proof.
  destruct xs as [|x0 rest]; [done|]. simpl. intros [= <-].
  assert (∀ seen m,
    (m ∈ seen ∧ ∀ x, x ∈ seen → (m <? x)%float = false) →
    let top := fold_left (λ m y, if (m <? y)%float then y else m) rest m in
    top ∈ seen ++ rest ∧ ∀ x, x ∈ seen ++ rest → (top <? x)%float = false) as Hgen.
  { induction rest as [|y rest IH]; intros seen m [Hin Hmax]; simpl.
    - by rewrite app_nil_r.
    - replace (seen ++ y :: rest) with ((seen ++ [y]) ++ rest)
        by (by rewrite <-app_assoc).
      apply IH. destruct (m <? y)%float eqn:Hlt.
      + split; [apply elem_of_app; right; by apply list_elem_of_singleton|].
        intros x [Hx| ->%list_elem_of_singleton]%elem_of_app.
        * destruct (y <? x)%float eqn:Hyx; [|done].
          pose proof (ltb_trans _ _ _ Hlt Hyx). pose proof (Hmax x Hx). congruence.
        * apply ltb_irrefl.
      + split; [apply elem_of_app; by left|].
        intros x [Hx| ->%list_elem_of_singleton]%elem_of_app; auto. }
  apply (Hgen [x0] x0). split; [by apply list_elem_of_singleton|].
  intros x ->%list_elem_of_singleton. apply ltb_irrefl.
Qed.

(** ** The cells in row-major order *)

Lemma elem_of_cells n m c : c ∈ cells n m ↔ c.1 < n ∧ c.2 < m.
Proof.
  unfold cells, range. rewrite list_elem_of_bind. split.
  - intros (i & (j & -> & Hj)%list_elem_of_fmap & Hi).
    apply elem_of_seq in Hi, Hj. simpl. lia.
  - intros [Hi Hj]. exists c.1. split; [|apply elem_of_seq; lia].
    apply list_elem_of_fmap. exists c.2. split; [by destruct c|apply elem_of_seq; lia].
Qed.

Lemma NoDup_cells n m : NoDup (cells n m).
Proof.
  unfold cells, range. apply NoDup_bind; [| |apply NoDup_seq].
  - intros i1 i2 c _ _ (j1 & -> & _)%list_elem_of_fmap (j2 & [=] & _)%list_elem_of_fmap.
    done.
  - intros i _. apply NoDup_fmap_2; [|apply NoDup_seq]. by intros j1 j2 [=].
Qed.

Lemma cells_head n m : 0 < n → 0 < m → cells n m = (0, 0) :: tail (cells n m).
Proof.
  intros Hn Hm. destruct n as [|n]; [lia|]. destruct m as [|m]; [lia|]. done.
Qed.

(** The tail of the row-major order holds every cell but the first. *)
Lemma elem_of_tail_cells n m c :
  c ∈ tail (cells n m) ↔ (c.1 < n ∧ c.2 < m) ∧ c ≠ (0, 0).
Proof.
  destruct (decide (0 < n ∧ 0 < m)) as [[Hn Hm]|Hzero].
  - pose proof (NoDup_cells n m) as Hnd.
    rewrite <-elem_of_cells. rewrite (cells_head n m Hn Hm) in Hnd |- * at 2.
    apply NoDup_cons in Hnd as [Hnotin _]. rewrite elem_of_cons. split.
    + intros Hin. split; [by right|]. by intros ->.
    + by intros [[->|?] ?].
  - assert (cells n m = []) as ->.
    { destruct (cells n m) as [|c0 cs] eqn:Hcs; [done|].
      assert (c0 ∈ cells n m) as Hin by (rewrite Hcs; left).
      apply elem_of_cells in Hin. lia. }
    simpl. split; [by intros ?%elem_of_nil|]. intros [[??] _]. lia.
Qed.

Lemma length_cells n m : length (cells n m) = n * m.
Proof.
  unfold cells, range. induction n as [|n IH] using nat_ind; [done|].
  replace (seq 0 (S n)) with (seq 0 n ++ [n]) by (by rewrite seq_S).
  rewrite bind_app, length_app, IH, bind_singleton, length_fmap, length_seq. lia.
Qed.

Lemma rect_rows n m (w : ndarray) :
  rect n m w → w = (λ i, (λ j, value_at w (i, j)) <$> range m) <$> range n.
Proof.
  intros Hw. apply list_eq. intros i. unfold range.
  rewrite list_lookup_fmap. destruct (decide (i < n)) as [Hi|Hi].
  - rewrite lookup_seq_lt by done. simpl.
    destruct (lookup_lt_is_Some_2 w i) as [row Hrow]; [by rewrite (proj1 Hw)|].
    rewrite Hrow. f_equal. apply list_eq. intros j.
    rewrite list_lookup_fmap. destruct (decide (j < m)) as [Hj|Hj].
    + rewrite lookup_seq_lt by done. simpl.
      rewrite <-(getitem_value_at n m) by done. unfold getitem. simpl.
      by rewrite Hrow.
    + rewrite lookup_seq_ge by lia. simpl. apply lookup_ge_None.
      rewrite (rect_row n m w i row); [lia|done..].
  - rewrite lookup_seq_ge by lia. apply lookup_ge_None. rewrite (proj1 Hw). lia.
Qed.

Lemma concat_fmap_bind {A B} (f : A → list B) (l : list A) : concat (f <$> l) = l ≫= f.
Proof. induction l as [|x l IH]; [done|]. csimpl. by rewrite IH. Qed.

Lemma fmap_bind_list {A B C} (f : B → C) (h : A → list B) (l : list A) :
  f <$> (l ≫= h) = l ≫= (λ x, f <$> h x).
Proof.
  induction l as [|x l IH]; [done|]. rewrite !bind_cons, fmap_app. by rewrite IH.
Qed.

Lemma bind_ext_list {A B} (f h : A → list B) (l : list A) :
  (∀ x, f x = h x) → l ≫= f = l ≫= h.
Proof.
  intros Hfh. induction l as [|x l IH]; [done|]. by rewrite !bind_cons, Hfh, IH.
Qed.

(** [reshape(1, -1)] lists the values of the cells in row-major order. *)
Lemma reshape_row_cells n m w :
  rect n m w → reshape_row w = value_at w <$> cells n m.
Proof.
  intros Hw. unfold reshape_row, cells. rewrite (rect_rows n m w Hw) at 1.
  rewrite concat_fmap_bind, fmap_bind_list.
  apply bind_ext_list. intros i. by rewrite <-list_fmap_compose.
Qed.

(** ** The delta of [iterate] *)

Lemma zip_with_fmap_same {A B C} (h : B → B → C) (f f0 : A → B) (l : list A) :
  zip_with h (f <$> l) (f0 <$> l) = (λ x, h (f x) (f0 x)) <$> l.
Proof. induction l as [|x l IH]; [done|]. csimpl. by rewrite IH. Qed.

Lemma delta_of_cells n m w w0 :
  rect n m w → rect n m w0 → n * m ≠ 1 →
  delta_of w w0 = max_abs_change w w0 (tail (cells n m)).
Proof.
  intros Hw Hw0 Hnm. unfold delta_of, max_abs_change, abs_sub.
  rewrite (reshape_row_cells n m w Hw), (reshape_row_cells n m w0 Hw0).
  pose proof (length_cells n m) as Hlen.
  destruct (cells n m) as [|c0 [|c1 cs]]; simpl in Hlen; [done|lia|].
  simpl. by rewrite zip_with_fmap_same.
Qed.

Lemma iterate_delta s n m :
  rect n m (world s) → iterations s = 0%Z → n * m ≠ 1 →
  iterate s =
  (match max_abs_change (world (sweep_state s)) (world s) (tail (cells n m)) with
   | Return delta => Return (Some delta)
   | Raise e => Raise e
   end, sweep_state s).
Proof.
  intros Hw Hits Hnm.
  destruct (sweep_state_swept s n m Hw) as (w & Hrun & -> & Hsw & _).
  rewrite (iterate_after_sweep s w Hrun), bool_decide_eq_true_2 by done.
  simpl. by rewrite (delta_of_cells n m).
Qed.

(** ** The threshold is not read by a sweep *)

Lemma blind_ret {A} (a : A) : theta_blind (mret a : py A).
Proof. done. Qed.

Lemma blind_raise {A} e : theta_blind (raise e : py A).
Proof. done. Qed.

Lemma blind_bind {A B} (c : py A) (k : A → py B) :
  theta_blind c → (∀ a, theta_blind (k a)) → theta_blind (c ≫= k).
Proof.
  intros Hc Hk t s. run_py. rewrite Hc.
  destruct (c s) as [[a|e] s']; simpl; [apply Hk|done].
Qed.

Lemma blind_self_bind {A} (k : GridWorldSolver → py A) :
  (∀ t s, k (set_theta t s) = k s) → (∀ s0, theta_blind (k s0)) →
  theta_blind (self ≫= k).
Proof.
  intros Hsame Hk t s. run_py. rewrite Hsame. apply Hk.
Qed.

Lemma blind_read_world c : theta_blind (read_world c).
Proof. intros t s. unfold read_world. simpl. by destruct (getitem (world s) c). Qed.

Lemma blind_write_world c v : theta_blind (write_world c v).
Proof. intros t s. unfold write_world. simpl. by destruct (getitem (world s) c). Qed.

Lemma blind_for_each {A} (xs : list A) (body : A → py unit) :
  (∀ x, theta_blind (body x)) → theta_blind (for_each xs body).
Proof.
  intros Hbody. induction xs as [|x xs IH]; [apply blind_ret|].
  simpl. apply blind_bind; [apply Hbody|done].
Qed.

Lemma blind_v_pi directions : theta_blind (v_pi directions).
Proof.
  unfold v_pi. generalize 0%float as total.
  induction directions as [|c rest IH]; intros total; [apply blind_ret|].
  simpl. apply blind_self_bind; [done|]. intros s0.
  apply blind_bind; [apply blind_read_world|]. intros v. apply IH.
Qed.

Lemma blind_update_cell i j : theta_blind (update_cell i j).
Proof.
  apply blind_self_bind; [done|]. intros s0.
  destruct (is_last (world s0) i j); [apply blind_ret|].
  destruct (is_first (terminals s0) i j); [apply blind_ret|].
  apply blind_bind; [apply blind_v_pi|]. intros v. apply blind_write_world.
Qed.

Lemma blind_sweep : theta_blind sweep.
Proof.
  apply blind_self_bind; [done|]. intros s0. apply blind_for_each. intros i.
  apply blind_self_bind; [done|]. intros s1. apply blind_for_each. intros j.
  apply blind_update_cell.
Qed.

Lemma blind_iterate : theta_blind iterate.
Proof.
  apply blind_self_bind; [done|]. intros s0.
  apply blind_bind; [apply blind_sweep|]. intros _.
  apply blind_self_bind; [done|]. intros s1.
  case_bool_decide; [|apply blind_ret].
  destruct (delta_of (world s1) (world s0)); [apply blind_ret|apply blind_raise].
Qed.

Lemma sweeps_set_theta k t s : sweeps k (set_theta t s) = set_theta t (sweeps k s).
Proof.
  induction k as [|k IH]; [done|]. rewrite !sweeps_S, IH.
  unfold sweep_state. by rewrite blind_iterate.
Qed.

(** ** [calc_mini_gridworld] with a fixed number of iterations *)

Lemma sweeps_succ_r k s : sweeps (S k) s = sweeps k (sweep_state s).
Proof. apply Nat.iter_succ_r. Qed.

Lemma iterate_fixed s n m :
  rect n m (world s) → iterations s ≠ 0%Z → iterate s = (Return None, sweep_state s).
Proof.
  intros Hw Hits. destruct (sweep_state_swept s n m Hw) as (w & Hrun & -> & _).
  by rewrite (iterate_after_sweep s w Hrun), bool_decide_eq_false_2.
Qed.

Lemma sweeps_iterations k s n m :
  rect n m (world s) → iterations (sweeps k s) = iterations s.
Proof. intros Hw. destruct (sweeps_rect k s n m Hw) as [_ ->]. done. Qed.

Lemma repeat_iterate_fixed s n m ks i :
  rect n m (world s) → iterations s ≠ 0%Z →
  repeat_iterate ks i s =
  (Return (match last ks with Some k => Some k | None => i end),
   sweeps (length ks) s).
Proof.
  intros Hw Hits. revert i s Hw Hits.
  induction ks as [|k ks IH]; intros i s Hw Hits; [done|].
  simpl repeat_iterate. run_py.
  rewrite (iterate_fixed s n m Hw Hits).
  rewrite IH.
  - rewrite last_cons. simpl length. rewrite sweeps_succ_r. by destruct (last ks).
  - by apply sweep_state_rect.
  - by rewrite <-(sweeps_iterations 1 s n m Hw) in Hits.
Qed.

Lemma calc_fixed s n m fuel :
  rect n m (world s) → (0 < iterations s)%Z →
  calc_mini_gridworld fuel s =
  Some (Return (world (sweeps (Z.to_nat (iterations s)) s), Z.to_nat (iterations s)),
        sweeps (Z.to_nat (iterations s)) s).
Proof.
  intros Hw Hits. unfold calc_mini_gridworld.
  rewrite bool_decide_eq_true_2 by lia.
  rewrite (repeat_iterate_fixed s n m) by (done || lia).
  unfold range. rewrite length_seq.
  destruct (Z.to_nat (iterations s)) as [|N] eqn:HN; [lia|].
  rewrite seq_S, last_snoc. simpl. do 4 f_equal. lia.
Qed.

(** ** [calc_mini_gridworld] until convergence *)

Lemma iterate_state s : (iterate s).2 = sweep_state s.
Proof. done. Qed.

(** The counter that the [while] loop returns has grown by the number of
    calls of [iterate] made. *)
Lemma converge_calls fuel delta i s i' s' :
  converge fuel delta i s = Some (Return i', s') →
  ∃ k, i' = i + k ∧ s' = sweeps k s.
Proof.
  revert delta i s. induction fuel as [|fuel IH]; intros delta i s; simpl.
  - destruct (theta s <? delta)%float; [done|]. intros [= <- <-]. exists 0. by rewrite Nat.add_0_r.
  - destruct (theta s <? delta)%float; [|intros [= <- <-]; exists 0; by rewrite Nat.add_0_r].
    pose proof (iterate_state s) as Hst.
    destruct (iterate s) as [[[delta'|]|e] s1]; simpl in Hst; [|done..].
    subst s1. destruct (delta' <? theta (sweep_state s))%float.
    + intros [= <- <-]. by exists 1.
    + intros (k & -> & ->)%IH. exists (S k). split; [lia|]. by rewrite sweeps_succ_r.
Qed.

Lemma calc_converged_count fuel s w printed s' :
  iterations s = 0%Z →
  calc_mini_gridworld fuel s = Some (Return (w, printed), s') →
  ∃ k, s' = sweeps k s ∧ w = world s' ∧ printed = k + 1.
Proof.
  intros Hits. unfold calc_mini_gridworld.
  rewrite bool_decide_eq_false_2 by (by intros []).
  destruct (converge fuel infinity 0 s) as [[[i|e] s1]|] eqn:Hconv; [|done..].
  intros [= <- <- <-]. apply converge_calls in Hconv as (k & -> & ->). by exists k.
Qed.

(** ** [add_arrows] *)

(** One turn of the loop either leaves [actions] as it is or appends the
    glyph of the direction, and a space after a first glyph. *)
Lemma add_action_cases grid_world i j actions k direction :
  add_action grid_world i j actions (k, direction) = actions
  ∨ add_action grid_world i j actions (k, direction)
    = (let actions' := (actions ++ glyph k)%string in
       if bool_decide (String.length actions' = 1) then (actions' ++ " ")%string
       else actions').
Proof.
  unfold add_action.
  destruct (getitem_opt grid_world direction.1 direction.2) as [x|e]; [|by left].
  destruct (getitem grid_world (i, j)) as [y|]; [|by left].
  destruct (gt_truth x y) as [[]|e]; [by right|by left..].
Qed.

(** Whatever the grid, a cell of the overlay holds one arrow at most. *)
Lemma overlay_cell_one_arrow s grid_world i j :
  count_arrows (action_cell s grid_world i j) ≤ 1.
Proof.
  unfold action_cell.
  destruct (is_last (world s) i j); [vm_compute; lia|].
  destruct (is_first (terminals s) i j); [vm_compute; lia|].
  unfold cell_actions, enumerate. cbn [imap fold_left compose].
  repeat match goal with
  | |- context [add_action ?g ?i ?j ?a (?k, ?dir)] =>
      destruct (add_action_cases g i j a k dir) as [-> | ->]
  end; vm_compute; lia.
Qed.

(** ** The runs of the notebook *)

(** The trace lists, call by call, whether the delta was below the
    threshold. *)
Lemma below_trace_lookup k s j :
  j < k → below_trace k s !! j = Some (delta_below_theta (sweeps j s)).
Proof.
  revert s j. induction k as [|k IH]; intros s j Hj; [lia|].
  destruct j as [|j]; [done|]. simpl below_trace. rewrite lookup_cons.
  rewrite IH by lia. by rewrite sweeps_succ_r.
Qed.

(** The values of [grid100], which the notebook prints rounded to one
    decimal. *)
Lemma grid100_values :
  grid100 =
  [[0; -13.99765839068365; -19.996633623287842; -21.99629467837957];
   [-13.99765839068365; -17.997126538129471; -19.996880080708657; -19.996915755100328];
   [-19.996633623287842; -19.996880080708657; -17.997367359366947; -13.998034438123131];
   [-21.99629467837957; -19.996915755100328; -13.998034438123128; 0]]%float.
Proof. vm_compute. reflexivity. Qed.

(** The overlay that the notebook prints for this run. *)
Example overlay_of_grid100 :
  add_arrows (default_solver "first_and_last" 100) grid100
  = [["G";  "< "; "< "; "v "];
     ["^ "; "^ "; "^ "; "v "];
     ["^ "; "^ "; "v "; "v "];
     ["^ "; "^ "; "> "; "G"]].
Proof. rewrite grid100_values. vm_compute. reflexivity. Qed.

(** * The claims *)

(** C1. For every state [(i, j)] of the grid, [v_pi], called as [iterate]
    calls it with the four coordinates that the moves from [(i, j)] resolve
    to (a move off the grid resolving to [(i, j)] itself), returns the
    Bellman expectation under the uniform policy, the sum over the four
    neighbors of [(1/4) * (step_reward + discount * V(neighbor))] with [V]
    read from the current grid, and leaves the solver object, its grid
    included, as it was. *)
Theorem v_pi_bellman_expectation s n m i j :
  rect n m (world s) → i < n → j < m →
  v_pi (directions_of (world s) i j) s
  = (Return (expectation s (value_at (world s)) n m (i, j)), s).
Proof.
  intros Hw Hi Hj. rewrite (directions_of_neighbors n m) by done.
  by apply v_pi_neighbors.
Qed.

Lemma v_pi_bellman_expectation_witness :
  rect 4 4 (world (default_solver "last" 0))
  ∧ v_pi (directions_of (world (default_solver "last" 0)) 1 2) (default_solver "last" 0)
    = (Return (expectation (default_solver "last" 0)
                 (value_at (world (default_solver "last" 0))) 4 4 (1, 2)),
       default_solver "last" 0).
Proof.
  split; [rect_by_evaluation|].
  apply (v_pi_bellman_expectation (default_solver "last" 0) 4 4 1 2);
    [rect_by_evaluation | lia | lia].
Defined.

(** C2, as stated, fails: on the all-zero grid of shape [(3, 3)] the new
    value of cell [(0, 1)] after one call of [iterate] is not the expectation
    over the values that the grid held before the call (it is -1.25, not
    -1: its left neighbor [(0, 0)] was updated to -1 earlier in the same
    sweep). *)
Lemma sweep_not_synchronous :
  value_at (world (sweep_state grid3)) (0, 1)
  ≠ expectation grid3 (value_at (world grid3)) 3 3 (0, 1).
Proof. apply float_neq; vm_compute; reflexivity. Qed.

(** C2, amended. One call of [iterate] updates the grid in place, in
    row-major order: the new value of a non-terminal cell is the expectation
    over the values that the grid holds when the cell is reached, the new
    value for a neighbor that comes before the cell (above it, or left of
    it) and the value of the previous sweep for any other neighbor and for
    the cell itself. *)
Theorem sweep_in_place s n m c :
  rect n m (world s) → c.1 < n → c.2 < m →
  terminal (terminals s) n m c = false →
  value_at (world (sweep_state s)) c
  = expectation s (seen_by (world s) (world (sweep_state s)) c) n m c.
Proof.
  intros Hw Hi Hj Hterm.
  destruct (sweep_state_swept s n m Hw) as (w & _ & -> & _ & Hc).
  simpl. by rewrite (Hc c Hi Hj), before_end, Hterm.
Qed.

Lemma sweep_in_place_witness :
  value_at (world (sweep_state grid3)) (0, 1)
  = expectation grid3 (seen_by (world grid3) (world (sweep_state grid3)) (0, 1)) 3 3 (0, 1).
Proof.
  apply (sweep_in_place grid3 3 3 (0, 1));
    [rect_by_evaluation | simpl; lia | simpl; lia | reflexivity].
Defined.

(** C3. Whatever the configuration, the terminal cells (the bottom-right
    cell always, and the top-left cell too when [terminals] is
    ["first_and_last"]) still hold their initial value 0 after any number
    [k] of calls of [iterate]. *)
Theorem terminal_cells_fixed rewards n m gamma theta term its k :
  0 < n → 0 < m →
  getitem (world (sweeps k (init rewards (n, m) gamma theta term its))) (n - 1, m - 1)
    = Some 0%float
  ∧ (term = "first_and_last" →
     getitem (world (sweeps k (init rewards (n, m) gamma theta term its))) (0, 0)
       = Some 0%float).
Proof.
  intros Hn Hm. set (s := init rewards (n, m) gamma theta term its).
  assert (rect n m (world s)) as Hw by apply rect_zeros.
  assert (∀ c, c.1 < n → c.2 < m → terminal term n m c = true →
               getitem (world (sweeps k s)) c = Some 0%float) as Hterm.
  { intros c Hi Hj Hc.
    rewrite (getitem_value_at n m) by (done || by apply sweeps_rect).
    f_equal. induction k as [|k IH]; [apply value_at_zeros|].
    destruct (sweeps_rect k s n m Hw) as [Hr Hcfg].
    rewrite sweeps_S, (sweep_state_terminal _ n m); [done..|].
    by rewrite Hcfg. }
  split.
  - apply Hterm; simpl; [lia..|]. unfold terminal. by rewrite bool_decide_eq_true_2.
  - intros ->. apply Hterm; simpl; [lia..|]. unfold terminal.
    rewrite (bool_decide_eq_true_2 ((0, 0) = (0, 0))) by done.
    by rewrite orb_true_r.
Qed.

Lemma terminal_cells_fixed_witness :
  getitem (world (sweeps 3 (init (-1)%float (4, 4) 1%float 1e-5%float "first_and_last" 0)))
    (4 - 1, 4 - 1) = Some 0%float
  ∧ ("first_and_last" = "first_and_last" →
     getitem (world (sweeps 3 (init (-1)%float (4, 4) 1%float 1e-5%float "first_and_last" 0)))
       (0, 0) = Some 0%float).
Proof.
  apply (terminal_cells_fixed (-1)%float 4 4 1%float 1e-5%float "first_and_last" 0 3); lia.
Defined.

(** C4: the report is off by one. On the default configuration (shape
    [(4, 4)], reward -1, no discount, threshold 1e-5, [terminals = 'last'],
    [iterations = 0]) the deltas of the first 381 calls of [iterate] are not
    below the threshold and the delta of call 382 is: the run makes 382
    sweeps and returns the grid after them, but the number it reports is
    383, the value [i+1] that suits the zero-based [i] of the [for] loop of
    the other branch. *)
Theorem convergence_count_off_by_one :
  calc_mini_gridworld 1000 (default_solver "last" 0)
  = Some (Return (world (sweeps 382 (default_solver "last" 0)), 383),
          sweeps 382 (default_solver "last" 0))
  ∧ below_trace 382 (default_solver "last" 0) = replicate 381 false ++ [true].
Proof. split; vm_compute; reflexivity. Qed.

(** C5. When [iterations] is positive, [calc_mini_gridworld] makes exactly
    that many sweeps and returns the grid after them with a reported count
    equal to [iterations]; no call of [iterate] computes a delta (each
    returns [None]), and the run is the same, whatever the threshold is. *)
Theorem fixed_iterations_run s n m fuel :
  rect n m (world s) → (0 < iterations s)%Z →
  calc_mini_gridworld fuel s
  = Some (Return (world (sweeps (Z.to_nat (iterations s)) s), Z.to_nat (iterations s)),
          sweeps (Z.to_nat (iterations s)) s)
  ∧ (∀ k, (iterate (sweeps k s)).1 = Return None)
  ∧ (∀ t, calc_mini_gridworld fuel (set_theta t s)
          = Some (Return (world (sweeps (Z.to_nat (iterations s)) s),
                          Z.to_nat (iterations s)),
                  set_theta t (sweeps (Z.to_nat (iterations s)) s))).
Proof.
  intros Hw Hits. split; [by apply (calc_fixed s n m)|]. split.
  - intros k. destruct (sweeps_rect k s n m Hw) as [Hr _].
    rewrite (iterate_fixed _ n m Hr); [done|].
    rewrite (sweeps_iterations k s n m Hw). lia.
  - intros t. rewrite (calc_fixed (set_theta t s) n m) by done.
    simpl iterations. by rewrite sweeps_set_theta.
Qed.

Lemma fixed_iterations_run_witness :
  calc_mini_gridworld 0 (default_solver "first_and_last" 100)
  = Some (Return (world (sweeps (Z.to_nat 100) (default_solver "first_and_last" 100)),
                  Z.to_nat 100),
          sweeps (Z.to_nat 100) (default_solver "first_and_last" 100)).
Proof.
  apply (fixed_iterations_run (default_solver "first_and_last" 100) 4 4 0);
    [rect_by_evaluation | simpl; lia].
Defined.

(** C6. In convergence mode with [terminals = 'last'], on a grid of at
    least two cells, [iterate] returns Python's [max] of the absolute
    differences between the grid after the sweep and the grid before it,
    taken over the cells in row-major order without the first: the value
    returned is the change of a cell other than [(0, 0)], and no cell other
    than [(0, 0)] has changed by more. (The proof makes no use of the
    terminal mode: the first cell is left out in either mode.) *)
Theorem delta_excludes_first_cell s n m :
  rect n m (world s) → iterations s = 0%Z → terminals s = "last" → 1 < n * m →
  ∃ delta,
    iterate s = (Return (Some delta), sweep_state s)
    ∧ max_abs_change (world (sweep_state s)) (world s) (tail (cells n m)) = Return delta
    ∧ (∃ c, (c.1 < n ∧ c.2 < m) ∧ c ≠ (0, 0)
            ∧ delta = abs (value_at (world (sweep_state s)) c - value_at (world s) c)%float)
    ∧ (∀ c, c.1 < n → c.2 < m → c ≠ (0, 0) →
            (delta <? abs (value_at (world (sweep_state s)) c - value_at (world s) c))%float
            = false).
Proof.
  intros Hw Hits _ Hnm. rewrite (iterate_delta s n m) by (done || lia).
  destruct (max_abs_change _ _ _) as [delta|e] eqn:Hmax.
  - exists delta. split; [done|]. split; [done|].
    apply py_max_greatest in Hmax as [Hin Hle]. split.
    + apply list_elem_of_fmap in Hin as (c & -> & Hc).
      apply elem_of_tail_cells in Hc as [Hc Hne]. by exists c.
    + intros c Hi Hj Hne. apply Hle, list_elem_of_fmap. exists c.
      split; [done|]. by apply elem_of_tail_cells.
  - exfalso. unfold max_abs_change in Hmax.
    pose proof (length_cells n m) as Hlen.
    destruct (cells n m) as [|c0 [|c1 cs]]; simpl in Hlen; [lia..|done].
Qed.

Lemma delta_excludes_first_cell_witness :
  ∃ delta,
    iterate grid3 = (Return (Some delta), sweep_state grid3)
    ∧ max_abs_change (world (sweep_state grid3)) (world grid3) (tail (cells 3 3)) = Return delta
    ∧ (∃ c, (c.1 < 3 ∧ c.2 < 3) ∧ c ≠ (0, 0)
            ∧ delta = abs (value_at (world (sweep_state grid3)) c - value_at (world grid3) c)%float)
    ∧ (∀ c, c.1 < 3 → c.2 < 3 → c ≠ (0, 0) →
            (delta <? abs (value_at (world (sweep_state grid3)) c - value_at (world grid3) c))%float
            = false).
Proof.
  apply (delta_excludes_first_cell grid3 3 3);
    [rect_by_evaluation | reflexivity | reflexivity | lia].
Defined.

(** C7, as stated, fails: after one call of [iterate] on the all-zero grid
    of shape [(3, 3)] the center cell does not hold -1.0. *)
Lemma center_not_minus_one :
  getitem (world (sweep_state grid3)) (1, 1) ≠ Some (-1)%float.
Proof.
  assert (getitem (world (sweep_state grid3)) (1, 1) = Some (-1.625)%float) as ->
    by (vm_compute; reflexivity).
  intros H. apply (float_neq (-1.625) (-1))%float; [done|done|congruence].
Qed.

(** C7, amended. For a grid of shape [(3, 3)] with only the bottom-right
    cell terminal, a reward of -1 and a discount of 1, one sweep from the
    all-zero grid leaves the center cell [(1, 1)] with the value -1.625
    exactly: the sweep is in place, and the cells above and left of the
    center already hold -1.25 when the center is updated. *)
Theorem center_after_first_sweep :
  getitem (world (sweep_state grid3)) (1, 1) = Some (-1.625)%float
  ∧ getitem (world (sweep_state grid3)) (0, 1) = Some (-1.25)%float
  ∧ getitem (world (sweep_state grid3)) (1, 0) = Some (-1.25)%float.
Proof. vm_compute. done. Qed.

(** C8, as stated, fails: in the grid that the run of 100 sweeps returns,
    cell [(0, 1)] and its mirror image [(3, 2)] do not compare equal. *)
Lemma fixed_run_not_symmetric : cells_equal grid100 (0, 1) (3, 2) = false.
Proof. rewrite grid100_values. reflexivity. Qed.

(** C8, amended. The grid that the solver returns for shape [(4, 4)],
    [terminals = 'first_and_last'], reward -1, discount 1 and
    [iterations = 100] is point-symmetric up to 0.001: the values of cell
    [(i, j)] and of cell [(3-i, 3-j)] differ by less than 0.001, for every
    cell. *)
Theorem fixed_run_nearly_symmetric :
  Forall
    (λ c, (abs (value_at grid100 c - value_at grid100 (3 - c.1, 3 - c.2)%nat) <? 0.001)%float
          = true)
    (cells 4 4).
Proof. rewrite grid100_values. repeat constructor. Qed.

(** C9: the overlay keeps one arrow only. In [slope2] the cell [(0, 0)] has
    two neighbors with a strictly greater value, below it and right of it;
    [add_arrows] builds the string ["v >"] for it, and the array of dtype
    ['<U2'] keeps ["v "]: one directional symbol, not two. No cell of any
    overlay holds more than one. *)
Theorem overlay_keeps_first_arrow :
  greater_neighbors slope2 2 2 (0, 0) = 2
  ∧ cell_actions slope2 0 0 = "v >"
  ∧ add_arrows (init (-1)%float (2, 2) 1%float 1e-5%float "last" 0) slope2
    = [["v "; "v "]; ["> "; "G"]]
  ∧ count_arrows "v " = 1
  ∧ ∀ s grid_world i j, count_arrows (action_cell s grid_world i j) ≤ 1.
Proof.
  split; [reflexivity|]. split; [reflexivity|]. split; [reflexivity|].
  split; [reflexivity|]. apply overlay_cell_one_arrow.
Qed.

(** C10, as stated, fails: on the grid of shape [(1, 1)] the delta
    computation does not take the maximum of an empty collection. The
    flattened grid with its first index dropped is not an empty sequence
    (the slice itself raises), and what the delta computation yields is not
    what [max] yields on an empty sequence. *)
Lemma single_cell_delta_is_no_empty_max :
  slice_from_1 (squeeze (reshape_row (world (init (-1)%float (1, 1) 1%float 1e-5%float "last" 0))))
  ≠ Return []
  ∧ delta_of (world (init (-1)%float (1, 1) 1%float 1e-5%float "last" 0))
             (world (init (-1)%float (1, 1) 1%float 1e-5%float "last" 0))
    ≠ py_max [].
Proof. split; vm_compute; discriminate. Qed.

(** C10, amended. On a grid of shape [(1, 1)] in convergence mode the sole
    cell is the bottom-right terminal one, so [iterate] updates nothing; its
    delta computation fails before [max] is reached, because [np.squeeze]
    makes the one-cell flattened grid a 0-dimensional array and the slice
    [[1:]] of it raises [IndexError]; [iterate] raises that error instead
    of returning a delta, and with a threshold below infinity (so that the
    loop is entered) [calc_mini_gridworld] fails with it rather than
    converging. *)
Theorem single_cell_grid_fails rewards gamma threshold term :
  (threshold <? infinity)%float = true →
  sweep_state (init rewards (1, 1) gamma threshold term 0)
    = init rewards (1, 1) gamma threshold term 0
  ∧ slice_from_1 (squeeze (reshape_row (world (init rewards (1, 1) gamma threshold term 0))))
    = Raise IndexError
  ∧ iterate (init rewards (1, 1) gamma threshold term 0)
    = (Raise IndexError, init rewards (1, 1) gamma threshold term 0)
  ∧ ∀ fuel, calc_mini_gridworld (S fuel) (init rewards (1, 1) gamma threshold term 0)
            = Some (Raise IndexError, init rewards (1, 1) gamma threshold term 0).
Proof.
  intros Hthreshold. split; [done|]. split; [done|]. split; [done|]. intros fuel.
  unfold calc_mini_gridworld. simpl. by rewrite Hthreshold.
Qed.

Lemma single_cell_grid_fails_witness :
  sweep_state (init (-1)%float (1, 1) 1%float 1e-5%float "last" 0)
    = init (-1)%float (1, 1) 1%float 1e-5%float "last" 0
  ∧ slice_from_1 (squeeze (reshape_row (world (init (-1)%float (1, 1) 1%float 1e-5%float "last" 0))))
    = Raise IndexError
  ∧ iterate (init (-1)%float (1, 1) 1%float 1e-5%float "last" 0)
    = (Raise IndexError, init (-1)%float (1, 1) 1%float 1e-5%float "last" 0)
  ∧ ∀ fuel, calc_mini_gridworld (S fuel) (init (-1)%float (1, 1) 1%float 1e-5%float "last" 0)
            = Some (Raise IndexError, init (-1)%float (1, 1) 1%float 1e-5%float "last" 0).
Proof.
  apply (single_cell_grid_fails (-1)%float 1%float 1e-5%float "last"). reflexivity.
Defined.

(** * Further properties of the code *)

(** ** [v_pi] on any list of non-negative coordinates *)

Lemma v_pi_loop_reads s directions total :
  v_pi_loop directions total s =
  (match mapM (getitem (world s)) directions with
   | Some vs =>
       Return (fold_left (λ total v, (total + 0.25 * (r s + g s * v))%float) vs total)
   | None => Raise IndexError
   end, s).
Proof.
  revert total. induction directions as [|c rest IH]; intros total; [done|].
  simpl v_pi_loop. unfold read_world. run_py. simpl mapM.
  destruct (getitem (world s) c) as [v|]; [|done].
  rewrite IH. simpl. by destruct (mapM (getitem (world s)) rest).
Qed.

Lemma getitem_in_range n m a c v :
  rect n m a → getitem a c = Some v → c.1 < n ∧ c.2 < m.
Proof.
  intros Ha Hc. unfold getitem in Hc.
  destruct (a !! c.1) as [row|] eqn:Hrow; [|done]. simpl in Hc.
  apply lookup_lt_Some in Hc. rewrite (rect_row n m a c.1 row Ha Hrow) in Hc.
  apply lookup_lt_Some in Hrow. rewrite (proj1 Ha) in Hrow. done.
Qed.

(** X1. On a list of coordinates that are non-negative integers, of any
    length, [v_pi] never changes the solver; when every coordinate is below
    the shape of the grid it returns the sum, added left to right from 0,
    of [(1/4) * (r + g * V(c))] over the list (0 for the empty list, and the
    weight stays 1/4 whatever the length of the list); when some coordinate
    reaches the shape of the grid it raises [IndexError]. (Negative
    indices, which numpy counts from the end of an axis, are no values of
    the coordinates here; [iterate] builds none.) *)
Theorem v_pi_any_directions s n m directions :
  rect n m (world s) →
  (v_pi directions s).2 = s
  ∧ (Forall (λ c, c.1 < n ∧ c.2 < m) directions →
     (v_pi directions s).1
     = Return (weighted_sum s (value_at (world s) <$> directions)))
  ∧ (¬ Forall (λ c, c.1 < n ∧ c.2 < m) directions →
     (v_pi directions s).1 = Raise IndexError).
Proof.
  intros Hw. unfold v_pi. rewrite v_pi_loop_reads. simpl.
  split; [done|]. split.
  - intros Hin.
    assert (mapM (getitem (world s)) directions
            = Some (value_at (world s) <$> directions)) as ->; [|done].
    apply mapM_Some. induction Hin as [|c rest [Hi Hj] _ IH]; csimpl; constructor; [|done].
    by apply (getitem_value_at n m).
  - intros Hout.
    destruct (mapM (getitem (world s)) directions) as [vs|] eqn:Hvs; [|done].
    exfalso. apply Hout. apply mapM_Some in Hvs. clear Hout.
    induction Hvs as [|c v rest vs Hc _ IH]; constructor; [|done].
    by apply (getitem_in_range n m (world s) c v).
Qed.

Lemma v_pi_any_directions_witness :
  ((v_pi [(1, 1); (2, 2); (2, 1)] walkthrough).2 = walkthrough
   ∧ (v_pi [(1, 1); (2, 2); (2, 1)] walkthrough).1 = Return (-1.015625)%float)
  ∧ ((v_pi [(0, 1); (7, 0)] grid3).2 = grid3
     ∧ (v_pi [(0, 1); (7, 0)] grid3).1 = Raise IndexError)
  ∧ (v_pi [] grid3).1 = Return 0%float.
Proof.
  split; [|split].
  - destruct (v_pi_any_directions walkthrough 3 3 [(1, 1); (2, 2); (2, 1)])
      as (Hstate & Hin & _); [rect_by_evaluation|].
    split; [exact Hstate|]. rewrite Hin; [vm_compute; reflexivity|].
    repeat constructor; simpl; lia.
  - destruct (v_pi_any_directions grid3 3 3 [(0, 1); (7, 0)])
      as (Hstate & _ & Hout); [rect_by_evaluation|].
    split; [exact Hstate|]. apply Hout. intros Hin.
    apply Forall_cons in Hin as [_ Hin]. apply Forall_cons in Hin as [[Hlt _] _].
    simpl in Hlt. lia.
  - destruct (v_pi_any_directions grid3 3 3 []) as (_ & Hin & _); [rect_by_evaluation|].
    rewrite Hin; [reflexivity|constructor].
Defined.

(** ** What [iterate] keeps *)

(** X2. On a grid of shape [(n, m)], any number of calls of [iterate]
    leaves the shape of the grid and every other attribute of the solver
    ([r], [g], [theta], [terminals], [iterations]) as they were: a call
    changes the values of the grid and nothing else. *)
Theorem iterate_keeps_configuration s n m k :
  rect n m (world s) →
  rect n m (world (sweeps k s))
  ∧ r (sweeps k s) = r s ∧ g (sweeps k s) = g s ∧ theta (sweeps k s) = theta s
  ∧ terminals (sweeps k s) = terminals s ∧ iterations (sweeps k s) = iterations s.
Proof.
  intros Hw. destruct (sweeps_rect k s n m Hw) as [Hr ->]. done.
Qed.

Lemma iterate_keeps_configuration_witness :
  rect 3 3 (world (sweeps 2 grid3))
  ∧ r (sweeps 2 grid3) = r grid3 ∧ g (sweeps 2 grid3) = g grid3
  ∧ theta (sweeps 2 grid3) = theta grid3
  ∧ terminals (sweeps 2 grid3) = terminals grid3
  ∧ iterations (sweeps 2 grid3) = iterations grid3.
Proof. apply (iterate_keeps_configuration grid3 3 3 2). rect_by_evaluation. Defined.

(** X3. From any grid, not only the all-zero one, the calls of [iterate]
    leave the terminal cells with the values they hold (the value 1 that the
    notebook's walkthrough gives the terminal state, say). *)
Theorem terminal_values_kept s n m k c :
  rect n m (world s) → c.1 < n → c.2 < m →
  terminal (terminals s) n m c = true →
  getitem (world (sweeps k s)) c = getitem (world s) c.
Proof.
  intros Hw Hi Hj Hterm.
  rewrite !(getitem_value_at n m) by (done || by apply sweeps_rect). f_equal.
  induction k as [|k IH]; [done|].
  destruct (sweeps_rect k s n m Hw) as [Hr Hcfg].
  rewrite sweeps_S, (sweep_state_terminal _ n m); [done..|].
  by rewrite Hcfg.
Qed.

Lemma terminal_values_kept_witness :
  getitem (world (sweeps 5 walkthrough)) (2, 2) = getitem (world walkthrough) (2, 2).
Proof.
  apply (terminal_values_kept walkthrough 3 3 5 (2, 2));
    [rect_by_evaluation | simpl; lia | simpl; lia | reflexivity].
Defined.

(** ** The errors of [iterate] *)

(** Two grids of one shape with the same values are the same grid. *)
Lemma rect_ext n m (w w' : ndarray) :
  rect n m w → rect n m w' →
  (∀ c, c.1 < n → c.2 < m → value_at w c = value_at w' c) → w = w'.
Proof.
  intros Hw Hw' Hsame.
  rewrite (rect_rows n m w Hw), (rect_rows n m w' Hw').
  apply list_eq. intros i. rewrite !list_lookup_fmap.
  destruct (range n !! i) as [i'|] eqn:Hi; [|done]. simpl. f_equal.
  apply lookup_seq in Hi as [-> Hi].
  apply list_eq. intros j. rewrite !list_lookup_fmap.
  destruct (range m !! j) as [j'|] eqn:Hj; [|done]. simpl. f_equal.
  apply lookup_seq in Hj as [-> Hj]. by apply Hsame.
Qed.

(** A sweep leaves a grid of one cell at most as it is. *)
Lemma sweep_state_small s n m :
  rect n m (world s) → n * m ≤ 1 → sweep_state s = s.
Proof.
  intros Hw Hnm.
  destruct (sweep_state_swept s n m Hw) as (w & _ & -> & Hr & Hc).
  rewrite <-(set_world_id s) at 2. f_equal.
  apply (rect_ext n m); [done..|]. intros c Hi Hj. rewrite (Hc c Hi Hj).
  assert (terminal (terminals s) n m c = true) as ->; [|by rewrite andb_false_r].
  unfold terminal. rewrite bool_decide_eq_true_2; [done|].
  destruct c as [i j]. simpl in *. f_equal; nia.
Qed.

(** X4. In convergence mode ([iterations = 0]) on a grid of shape [(n, m)],
    [iterate] returns a delta exactly when the grid has two cells at least.
    On a grid without cells it raises [ValueError] ([max] of an empty
    sequence), on a grid of one cell [IndexError] (the slice of a
    0-dimensional array), and in both cases the solver is left as it was. *)
Theorem iterate_delta_needs_two_cells s n m :
  rect n m (world s) → iterations s = 0%Z →
  (n * m = 0 → iterate s = (Raise ValueError, s))
  ∧ (n * m = 1 → iterate s = (Raise IndexError, s))
  ∧ (1 < n * m → ∃ delta, iterate s = (Return (Some delta), sweep_state s)).
Proof.
  intros Hw Hits.
  destruct (sweep_state_swept s n m Hw) as (w & Hrun & Hst & _).
  pose proof (iterate_after_sweep s w Hrun) as Hit.
  rewrite bool_decide_eq_true_2 in Hit by done.
  pose proof (reshape_row_cells n m (world s) Hw) as Hflat.
  pose proof (length_cells n m) as Hlen.
  assert (n * m ≤ 1 → w = world s ∧ set_world w s = s) as Hsmall.
  { intros Hnm. rewrite <-Hst, (sweep_state_small s n m) in * by done.
    split; [|done]. by rewrite Hst. }
  split; [|split]; intros Hnm.
  - destruct Hsmall as [-> Hs]; [lia|]. rewrite Hit, Hs.
    unfold delta_of. rewrite Hflat.
    destruct (cells n m); [done|simpl in Hlen; lia].
  - destruct Hsmall as [-> Hs]; [lia|]. rewrite Hit, Hs.
    unfold delta_of. rewrite Hflat.
    destruct (cells n m) as [|c0 [|c1 cs]]; simpl in Hlen; [lia|done|lia].
  - rewrite (iterate_delta s n m) by (done || lia).
    destruct (max_abs_change _ _ _) as [delta|e] eqn:Hmax; [by exists delta|].
    unfold max_abs_change in Hmax.
    destruct (cells n m) as [|c0 [|c1 cs]]; simpl in Hlen; [lia..|done].
Qed.

Lemma iterate_delta_needs_two_cells_witness :
  (0 * 3 = 0 → iterate (init (-1)%float (0, 3) 1%float 1e-5%float "last" 0)
               = (Raise ValueError, init (-1)%float (0, 3) 1%float 1e-5%float "last" 0))
  ∧ (0 * 3 = 1 → iterate (init (-1)%float (0, 3) 1%float 1e-5%float "last" 0)
                 = (Raise IndexError, init (-1)%float (0, 3) 1%float 1e-5%float "last" 0))
  ∧ (1 < 0 * 3 → ∃ delta, iterate (init (-1)%float (0, 3) 1%float 1e-5%float "last" 0)
         = (Return (Some delta), sweep_state (init (-1)%float (0, 3) 1%float 1e-5%float "last" 0))).
Proof.
  apply (iterate_delta_needs_two_cells (init (-1)%float (0, 3) 1%float 1e-5%float "last" 0) 0 3);
    [rect_by_evaluation | reflexivity].
Defined.

(** ** The runs of [calc_mini_gridworld] *)

(** X5. With a negative number of iterations [calc_mini_gridworld] makes no
    sweep: the [for] loop has no turn, [i] is never bound, and the report
    raises [NameError] with the grid as it was. *)
Theorem negative_iterations_fail s fuel :
  (iterations s < 0)%Z → calc_mini_gridworld fuel s = Some (Raise NameError, s).
Proof.
  intros Hits. unfold calc_mini_gridworld.
  rewrite bool_decide_eq_true_2 by lia.
  by replace (Z.to_nat (iterations s)) with 0 by lia.
Qed.

Lemma negative_iterations_fail_witness :
  calc_mini_gridworld 0 (default_solver "last" (-3))
  = Some (Raise NameError, default_solver "last" (-3)).
Proof. apply (negative_iterations_fail (default_solver "last" (-3)) 0). simpl. lia. Defined.

Lemma ltb_asym (x y : float) : (x <? y)%float = true → (y <? x)%float = false.
Proof.
  intros Hxy. destruct (y <? x)%float eqn:Hyx; [|done].
  pose proof (ltb_trans _ _ _ Hxy Hyx) as Hxx. by rewrite ltb_irrefl in Hxx.
Qed.

Lemma iterate_returns_delta s n m :
  rect n m (world s) → iterations s = 0%Z → 1 < n * m →
  ∃ delta, iterate s = (Return (Some delta), sweep_state s).
Proof.
  intros Hw Hits Hnm. rewrite (iterate_delta s n m) by (done || lia).
  destruct (max_abs_change _ _ _) as [delta|e] eqn:Hmax; [by exists delta|].
  unfold max_abs_change in Hmax. pose proof (length_cells n m) as Hlen.
  destruct (cells n m) as [|c0 [|c1 cs]]; simpl in Hlen; [lia..|done].
Qed.

(** The [while] loop leaves at the first delta that is not above the
    threshold. *)
Lemma converge_stops s n m k : ∀ fuel delta i,
  rect n m (world s) → iterations s = 0%Z → 1 < n * m →
  (theta s <? delta)%float = true →
  above_trace (S k) s = replicate k true ++ [false] →
  k < fuel →
  converge fuel delta i s = Some (Return (i + S k), sweeps (S k) s).
Proof.
  revert s. induction k as [|k IH]; intros s fuel delta i Hw Hits Hnm Habove Htrace Hfuel;
    (destruct fuel as [|fuel]; [lia|]); simpl converge; rewrite Habove;
    destruct (iterate_returns_delta s n m Hw Hits Hnm) as [delta' Hit];
    simpl in Htrace; unfold delta_above_theta in Htrace; rewrite Hit in *; simpl in Htrace;
    destruct (sweeps_rect 1 s n m Hw) as [Hw1 Hcfg]; change (sweeps 1 s) with (sweep_state s) in *;
    assert (theta (sweep_state s) = theta s) as Hth by (by rewrite Hcfg).
  - injection Htrace as Hd. rewrite Hth.
    destruct (delta' <? theta s)%float; [by rewrite Nat.add_1_r|].
    destruct fuel; simpl; rewrite Hth, Hd; by rewrite Nat.add_1_r.
  - injection Htrace as Hd Hrest. rewrite Hth, (ltb_asym _ _ Hd).
    rewrite (IH (sweep_state s)); [|done| |done| |done|lia].
    + rewrite (sweeps_succ_r (S k) s). do 3 f_equal. lia.
    + by rewrite Hcfg.
    + by rewrite Hth.
Qed.

(** X6. In convergence mode on a grid of two cells at least, with a
    threshold below infinity: when the deltas of the first [k] sweeps are
    above the threshold and the delta of sweep [k+1] is not (it is below
    the threshold, equal to it, or not a number), [calc_mini_gridworld]
    returns the grid after exactly [k+1] sweeps, and the number it reports
    is [k+2]. *)
Theorem convergence_run s n m k fuel :
  rect n m (world s) → iterations s = 0%Z → 1 < n * m →
  (theta s <? infinity)%float = true →
  above_trace (S k) s = replicate k true ++ [false] →
  k < fuel →
  calc_mini_gridworld fuel s
  = Some (Return (world (sweeps (S k) s), S k + 1), sweeps (S k) s).
Proof.
  intros Hw Hits Hnm Hinf Htrace Hfuel. unfold calc_mini_gridworld.
  rewrite bool_decide_eq_false_2 by (by intros []).
  by rewrite (converge_stops s n m k fuel infinity 0).
Qed.

Lemma convergence_run_witness :
  calc_mini_gridworld 10 half2
  = Some (Return (world (sweeps (S 5) half2), S 5 + 1), sweeps (S 5) half2).
Proof.
  apply (convergence_run half2 2 2 5 10);
    [rect_by_evaluation | reflexivity | lia | reflexivity | vm_compute; reflexivity | lia].
Defined.

(** X7. In convergence mode with a threshold that is not below infinity
    (infinity itself, or not a number) the [while] loop has no turn:
    [calc_mini_gridworld] returns the grid as it was, without a sweep, and
    reports 1. *)
Theorem no_sweep_without_finite_threshold s fuel :
  iterations s = 0%Z → (theta s <? infinity)%float = false →
  calc_mini_gridworld fuel s = Some (Return (world s, 1), s).
Proof.
  intros Hits Hinf. unfold calc_mini_gridworld.
  rewrite bool_decide_eq_false_2 by (by intros []).
  destruct fuel; simpl; by rewrite Hinf.
Qed.

Lemma no_sweep_without_finite_threshold_witness :
  calc_mini_gridworld 5 (init (-1)%float (4, 4) 1%float nan "last" 0)
  = Some (Return (world (init (-1)%float (4, 4) 1%float nan "last" 0), 1),
          init (-1)%float (4, 4) 1%float nan "last" 0).
Proof.
  apply (no_sweep_without_finite_threshold (init (-1)%float (4, 4) 1%float nan "last" 0) 5);
    reflexivity.
Defined.

Lemma sweeps_add a b s : sweeps (a + b) s = sweeps b (sweeps a s).
Proof.
  induction b as [|b IH]; [by rewrite Nat.add_0_r|].
  by rewrite Nat.add_succ_r, !sweeps_S, IH.
Qed.

(** X8. The solver is not reset between runs: with [iterations = N > 0], a
    second call of [calc_mini_gridworld] on the same object goes on from the
    grid that the first call left, and returns the grid after [2N] sweeps
    from the start, reporting [N] again. *)
Theorem second_run_continues s n m fuel fuel' :
  rect n m (world s) → (0 < iterations s)%Z →
  ∃ s1, calc_mini_gridworld fuel s
        = Some (Return (world s1, Z.to_nat (iterations s)), s1)
      ∧ calc_mini_gridworld fuel' s1
        = Some (Return (world (sweeps (Z.to_nat (iterations s) + Z.to_nat (iterations s)) s),
                        Z.to_nat (iterations s)),
                sweeps (Z.to_nat (iterations s) + Z.to_nat (iterations s)) s).
Proof.
  intros Hw Hits. exists (sweeps (Z.to_nat (iterations s)) s).
  split; [by apply (calc_fixed s n m)|].
  destruct (sweeps_rect (Z.to_nat (iterations s)) s n m Hw) as [Hw1 Hcfg].
  assert (iterations (sweeps (Z.to_nat (iterations s)) s) = iterations s) as Hits1
    by (by rewrite Hcfg).
  rewrite (calc_fixed _ n m) by (done || lia).
  by rewrite Hits1, <-sweeps_add.
Qed.

Lemma second_run_continues_witness :
  ∃ s1, calc_mini_gridworld 0 (default_solver "last" 2)
        = Some (Return (world s1, Z.to_nat (iterations (default_solver "last" 2))), s1)
      ∧ calc_mini_gridworld 0 s1
        = Some (Return (world (sweeps (Z.to_nat (iterations (default_solver "last" 2))
                                       + Z.to_nat (iterations (default_solver "last" 2)))
                                 (default_solver "last" 2)),
                        Z.to_nat (iterations (default_solver "last" 2))),
                sweeps (Z.to_nat (iterations (default_solver "last" 2))
                        + Z.to_nat (iterations (default_solver "last" 2)))
                  (default_solver "last" 2)).
Proof.
  apply (second_run_continues (default_solver "last" 2) 4 4 0 0);
    [rect_by_evaluation | simpl; lia].
Defined.

(** X9. [iterate] never reads the threshold and never writes it, in either
    mode and on any grid: with another threshold it returns the same
    result and leaves the same grid. Only [calc_mini_gridworld] compares
    the delta with the threshold. *)
Theorem iterate_ignores_theta t s :
  iterate (set_theta t s) = ((iterate s).1, set_theta t (iterate s).2).
Proof. apply blind_iterate. Qed.

(** X10. On a grid of two cells in a row with only the last one terminal,
    the convergence run stops after its first sweep, whatever the reward
    and the discount, for any threshold from 0 up: the only cell that the
    sweep changes is the first one, which the delta leaves out, so that
    the delta is 0. The grid returned holds a single Bellman update of the
    first cell. *)
Theorem two_cell_run_stops_at_once rewards gamma threshold fuel :
  (threshold <? infinity)%float = true → (threshold <? 0)%float = false →
  calc_mini_gridworld (S fuel) (init rewards (1, 2) gamma threshold "last" 0)
  = Some (Return (world (sweeps 1 (init rewards (1, 2) gamma threshold "last" 0)), 2),
          sweeps 1 (init rewards (1, 2) gamma threshold "last" 0))
  ∧ (iterate (init rewards (1, 2) gamma threshold "last" 0)).1 = Return (Some 0%float)
  ∧ world (sweeps 1 (init rewards (1, 2) gamma threshold "last" 0))
    = [[expectation (init rewards (1, 2) gamma threshold "last" 0) (λ _, 0%float) 1 2 (0, 0);
        0%float]].
Proof.
  intros Hinf Hzero. split; [|split; reflexivity].
  unfold calc_mini_gridworld. simpl bool_decide. cbv iota.
  cbn [converge]. cbn [theta init]. rewrite Hinf.
  assert (iterate (init rewards (1, 2) gamma threshold "last" 0)
          = (Return (Some 0%float), sweeps 1 (init rewards (1, 2) gamma threshold "last" 0))) as ->
    by reflexivity.
  cbv iota beta. cbn [Nat.add].
  destruct (0 <? _)%float; [done|].
  destruct fuel; cbn [converge]; change (theta (sweeps 1 _)) with threshold; by rewrite Hzero.
Qed.

Lemma two_cell_run_stops_at_once_witness :
  calc_mini_gridworld (S 0) (init (-1)%float (1, 2) 1%float 1e-5%float "last" 0)
  = Some (Return (world (sweeps 1 (init (-1)%float (1, 2) 1%float 1e-5%float "last" 0)), 2),
          sweeps 1 (init (-1)%float (1, 2) 1%float 1e-5%float "last" 0))
  ∧ (iterate (init (-1)%float (1, 2) 1%float 1e-5%float "last" 0)).1 = Return (Some 0%float)
  ∧ world (sweeps 1 (init (-1)%float (1, 2) 1%float 1e-5%float "last" 0))
    = [[expectation (init (-1)%float (1, 2) 1%float 1e-5%float "last" 0) (λ _, 0%float) 1 2 (0, 0);
        0%float]].
Proof.
  apply (two_cell_run_stops_at_once (-1)%float 1%float 1e-5%float 0); reflexivity.
Defined.

(** ** The sweep is the same in both modes *)

Section sweep_commutes.
(** An update of the object that leaves alone what a sweep reads and
    writes. *)
Context (f : GridWorldSolver → GridWorldSolver).
Hypothesis f_world : ∀ s, world (f s) = world s.
Hypothesis f_r : ∀ s, r (f s) = r s.
Hypothesis f_g : ∀ s, g (f s) = g s.
Hypothesis f_terminals : ∀ s, terminals (f s) = terminals s.
Hypothesis f_set_world : ∀ w s, f (set_world w s) = set_world w (f s).

Lemma commutes_for_each {A} (xs : list A) (body : A → py unit) :
  (∀ x, commutes_with f (body x)) → commutes_with f (for_each xs body).
Proof.
  intros Hbody. induction xs as [|x xs IH]; intros s; [done|].
  simpl. run_py. rewrite Hbody. destruct (body x s) as [[[]|e] s']; simpl; [apply IH|done].
Qed.

Lemma commutes_v_pi directions : commutes_with f (v_pi directions).
Proof.
  intros s. unfold v_pi. rewrite !v_pi_loop_reads. simpl.
  by rewrite f_world, f_r, f_g.
Qed.

Lemma commutes_update_cell i j : commutes_with f (update_cell i j).
Proof.
  intros s. unfold update_cell. run_py. rewrite f_world, f_terminals.
  destruct (is_last (world s) i j); [done|].
  destruct (is_first (terminals s) i j); [done|].
  rewrite commutes_v_pi. destruct (v_pi _ s) as [[v|e] s'] eqn:Hv; simpl; [|done].
  unfold write_world. rewrite f_world.
  destruct (getitem (world s') (i, j)); [|done]. simpl. by rewrite f_set_world.
Qed.

Lemma commutes_sweep : commutes_with f sweep.
Proof.
  intros s. unfold sweep. run_py. rewrite f_world.
  apply commutes_for_each. intros i s1. run_py. rewrite f_world.
  apply commutes_for_each. intros j. apply commutes_update_cell.
Qed.
End sweep_commutes.

(** The grid that [iterate] leaves is the grid that its sweep leaves. *)
Lemma iterate_state_sweep s : sweep_state s = (sweep s).2.
Proof.
  unfold sweep_state, iterate. run_py.
  destruct (sweep s) as [[[]|e] s']; simpl; [|done].
  case_bool_decide; [|done]. by destruct (delta_of _ _).
Qed.

Lemma sweeps_set_iterations k z s :
  sweeps k (set_iterations z s) = set_iterations z (sweeps k s).
Proof.
  induction k as [|k IH]; [done|]. rewrite !sweeps_S, IH.
  rewrite !iterate_state_sweep. by rewrite (commutes_sweep (set_iterations z)).
Qed.

(** X11. The two modes make the same sweeps. When the convergence run on a
    grid of shape [(n, m)] returns after at least one sweep, reporting
    [reported], a run of the same solver with [iterations = reported - 1]
    returns the same grid, and reports [reported - 1]. *)
Theorem fixed_run_matches_converged_run s n m fuel fuel' w reported s' :
  rect n m (world s) → iterations s = 0%Z →
  calc_mini_gridworld fuel s = Some (Return (w, reported), s') →
  1 < reported →
  calc_mini_gridworld fuel' (set_iterations (Z.of_nat reported - 1) s)
  = Some (Return (w, reported - 1), set_iterations (Z.of_nat reported - 1) s').
Proof.
  intros Hw Hits (k & -> & -> & ->)%calc_converged_count Hk; [|done].
  rewrite (calc_fixed _ n m) by (done || (simpl; lia)). simpl iterations.
  replace (Z.to_nat (Z.of_nat (k + 1) - 1)) with k by lia.
  rewrite sweeps_set_iterations. simpl. do 4 f_equal. lia.
Qed.

Lemma fixed_run_matches_converged_run_witness :
  calc_mini_gridworld 0 (set_iterations (Z.of_nat 7 - 1) half2)
  = Some (Return (world (sweeps 6 half2), 7 - 1),
          set_iterations (Z.of_nat 7 - 1) (sweeps 6 half2)).
Proof.
  apply (fixed_run_matches_converged_run half2 2 2 10 0 (world (sweeps 6 half2)) 7 (sweeps 6 half2));
    [rect_by_evaluation | reflexivity | vm_compute; reflexivity | lia].
Defined.

(** ** The overlay of [add_arrows] *)

(** Settling the bounds tests of a branch. *)
Ltac decide_all :=
  repeat first [rewrite bool_decide_eq_true_2 by lia | rewrite bool_decide_eq_false_2 by lia].

Lemma add_action_arrow_test grid_world i j actions k direction :
  add_action grid_world i j actions (k, direction)
  = if arrow_test grid_world i j direction then
      (if bool_decide (String.length (actions ++ glyph k)%string = 1)
       then ((actions ++ glyph k) ++ " ")%string else (actions ++ glyph k)%string)
    else actions.
Proof.
  unfold add_action, arrow_test.
  destruct (getitem_opt grid_world direction.1 direction.2) as [x|e]; [|done].
  destruct (getitem grid_world (i, j)) as [y|]; [|done].
  by destruct (gt_truth x y) as [[]|e].
Qed.

(** The test on an integer pair compares the two cells. *)
Lemma arrow_test_inside n m a i j i' j' :
  rect n m a → i < n → j < m → i' < n → j' < m →
  arrow_test a i j (Some i', Some j') = (value_at a (i, j) <? value_at a (i', j'))%float.
Proof.
  intros Ha Hi Hj Hi' Hj'. unfold arrow_test. simpl.
  rewrite (getitem_value_at n m a (i', j')), (getitem_value_at n m a (i, j)) by done.
  simpl. by destruct (_ <? _)%float.
Qed.

(** The test with [None] for an index is true only when the grid has a
    single column and the first cell of the row picked is greater. *)
Lemma arrow_test_none n m a i j k :
  rect n m a → i < n → j < m →
  arrow_test a i j (None, Some k) = arrow_test a i j (Some k, None)
  ∧ arrow_test a i j (Some k, None)
    = bool_decide (m = 1 ∧ k < n) && (value_at a (i, j) <? value_at a (k, 0%nat))%float.
Proof.
  intros Ha Hi Hj. split; [done|]. unfold arrow_test. simpl.
  rewrite (getitem_value_at n m a (i, j)) by done.
  destruct (a !! k) as [row|] eqn:Hrow.
  - pose proof (rect_row n m a k row Ha Hrow) as Hlen.
    apply lookup_lt_Some in Hrow as Hk. rewrite (proj1 Ha) in Hk.
    destruct row as [|v [|v' row]]; simpl in Hlen.
    + lia.
    + rewrite bool_decide_eq_true_2 by lia. simpl.
      assert (value_at a (k, 0) = v) as ->
        by (unfold value_at, getitem; simpl; by rewrite Hrow).
      by destruct (_ <? _)%float.
    + rewrite bool_decide_eq_false_2 by lia. done.
  - apply lookup_ge_None in Hrow. rewrite (proj1 Ha) in Hrow.
    rewrite bool_decide_eq_false_2 by lia. done.
Qed.

(** On a cell that is not the last one, each of the four tests of
    [add_arrows] says whether the move leads to a greater cell of the
    grid. *)
Lemma cell_actions_greater n m a i j :
  rect n m a → i < n → j < m → (i, j) ≠ (n - 1, m - 1) →
  cell_actions a i j
  = fold_left (λ actions kmv,
      if greater a n m (i, j) kmv.2 then
        (if bool_decide (String.length (actions ++ glyph kmv.1)%string = 1)
         then ((actions ++ glyph kmv.1) ++ " ")%string else (actions ++ glyph kmv.1)%string)
      else actions)
      [(0, Up); (1, Down); (2, Left); (3, Right)] "".
Proof.
  intros Ha Hi Hj Hlast. unfold cell_actions, enumerate.
  rewrite (rect_shape0 _ _ _ Ha), (rect_shape1 _ _ _ Ha) by lia.
  cbn [imap fold_left compose]. rewrite !add_action_arrow_test. cbn [fst snd].
  assert (∀ mv (d : option nat * option nat),
    (d = match mv with
         | Up => (if bool_decide (Z.of_nat i - 1 < 0)%Z then None else Some (i - 1), Some j)
         | Down => (if bool_decide (Z.of_nat i + 1 > Z.of_nat n - 1)%Z
                    then None else Some (i + 1), Some j)
         | Left => (Some i, if bool_decide (Z.of_nat j - 1 < 0)%Z then None else Some (j - 1))
         | Right => (Some i, if bool_decide (Z.of_nat j + 1 > Z.of_nat m - 1)%Z
                             then None else Some (j + 1))
         end) →
    arrow_test a i j d = greater a n m (i, j) mv) as Htest.
  { intros mv d ->. unfold greater, neighbor, in_grid.
    assert (∀ k, arrow_test a i j (None, Some k) = false
                 ∨ (m = 1 ∧ k < n ∧ j = 0
                    ∧ arrow_test a i j (None, Some k)
                      = (value_at a (i, 0%nat) <? value_at a (k, 0%nat))%float)) as Hnone.
    { intros k. destruct (arrow_test_none n m a i j k Ha Hi Hj) as [-> ->].
      case_bool_decide as Hm; [|by left]. right.
      destruct Hm as [-> Hk]. by replace j with 0 by lia. }
    assert (∀ k, arrow_test a i j (Some k, None) = arrow_test a i j (None, Some k)) as Hswap.
    { intros k. by destruct (arrow_test_none n m a i j k Ha Hi Hj) as [-> _]. }
    destruct mv; simpl.
    - destruct (decide (i = 0)) as [->|Hi0]; decide_all; simpl.
      + destruct (Hnone j) as [->|(-> & _ & -> & ->)]; [done|]. apply ltb_irrefl.
      + rewrite (arrow_test_inside n m) by (done || lia).
        rewrite ?Nat2Z.id. by replace (Z.to_nat (Z.of_nat i - 1)) with (i - 1) by lia.
    - destruct (decide (i + 1 < n)) as [Hin|Hin]; decide_all; simpl.
      + rewrite (arrow_test_inside n m) by (done || lia).
        rewrite ?Nat2Z.id. by replace (Z.to_nat (Z.of_nat i + 1)) with (i + 1) by lia.
      + destruct (Hnone j) as [->|(-> & _ & -> & _)]; [done|].
        exfalso. apply Hlast. f_equal; lia.
    - destruct (decide (j = 0)) as [->|Hj0]; decide_all; simpl.
      + rewrite Hswap. destruct (Hnone i) as [->|(-> & _ & _ & ->)]; [done|].
        apply ltb_irrefl.
      + rewrite (arrow_test_inside n m) by (done || lia).
        rewrite ?Nat2Z.id. by replace (Z.to_nat (Z.of_nat j - 1)) with (j - 1) by lia.
    - destruct (decide (j + 1 < m)) as [Hin|Hin]; decide_all; simpl.
      + rewrite (arrow_test_inside n m) by (done || lia).
        rewrite ?Nat2Z.id. by replace (Z.to_nat (Z.of_nat j + 1)) with (j + 1) by lia.
      + rewrite Hswap. destruct (Hnone i) as [->|(-> & _ & -> & ->)]; [done|].
        apply ltb_irrefl. }
  by rewrite (Htest Up _ eq_refl), (Htest Down _ eq_refl),
    (Htest Left _ eq_refl), (Htest Right _ eq_refl).
Qed.

Lemma overlay_at_add_arrows s n m a i j :
  rect n m a → i < n → j < m →
  overlay_at (add_arrows s a) (i, j) = Some (action_cell s a i j).
Proof.
  intros Ha Hi Hj. unfold overlay_at, add_arrows, range. simpl.
  rewrite (rect_shape0 _ _ _ Ha), (rect_shape1 _ _ _ Ha) by lia.
  rewrite list_lookup_fmap, lookup_seq_lt by done. simpl.
  by rewrite list_lookup_fmap, lookup_seq_lt.
Qed.

(** What [add_arrows] stores in a cell, when the grid has the shape of the
    solver's. *)
Lemma action_cell_first_greater s n m a i j :
  rect n m (world s) → rect n m a → i < n → j < m →
  action_cell s a i j
  = if terminal (terminals s) n m (i, j) then "G"
    else match first_greater a n m (i, j) with
         | Some mv => (arrow mv ++ " ")%string
         | None => ""
         end.
Proof.
  intros Hw Ha Hi Hj. unfold action_cell.
  pose proof (terminal_tests n m (world s) (terminals s) i j Hw Hi Hj) as Hterm.
  destruct (is_last (world s) i j); simpl in Hterm; [by rewrite <-Hterm|].
  destruct (is_first (terminals s) i j); simpl in Hterm; [by rewrite <-Hterm|].
  rewrite <-Hterm. rewrite (cell_actions_greater n m) by
    (done || (intros Heq; unfold terminal in Hterm; by rewrite Heq, bool_decide_eq_true_2 in Hterm)).
  unfold first_greater. simpl.
  by destruct (greater a n m (i, j) Up), (greater a n m (i, j) Down),
    (greater a n m (i, j) Left), (greater a n m (i, j) Right).
Qed.

Lemma greater_neighbors_filter a n m c :
  greater_neighbors a n m c
  = length (filter (λ mv, greater a n m c mv = true) [Up; Down; Left; Right]).
Proof.
  unfold greater_neighbors. f_equal. apply list_filter_iff.
  intros mv. unfold greater. by rewrite andb_true_iff.
Qed.

(** X12. When the grid passed to [add_arrows] has the shape of the solver's
    grid, the overlay holds ["G"] in each terminal cell and, in any other
    cell, the arrow of the first move, in the order up, down, left, right,
    that leads to a cell of the grid with a strictly greater value,
    followed by a space; the cell is empty when no move does. *)
Theorem overlay_shows_first_greater s n m a i j :
  rect n m (world s) → rect n m a → i < n → j < m →
  overlay_at (add_arrows s a) (i, j)
  = Some (if terminal (terminals s) n m (i, j) then "G"
          else match first_greater a n m (i, j) with
               | Some mv => (arrow mv ++ " ")%string
               | None => ""
               end).
Proof.
  intros Hw Ha Hi Hj. rewrite (overlay_at_add_arrows s n m) by done.
  by rewrite (action_cell_first_greater s n m).
Qed.

Lemma overlay_shows_first_greater_witness :
  overlay_at (add_arrows (default_solver "first_and_last" 100) grid100) (1, 3)
  = Some (if terminal (terminals (default_solver "first_and_last" 100)) 4 4 (1, 3) then "G"
          else match first_greater grid100 4 4 (1, 3) with
               | Some mv => (arrow mv ++ " ")%string
               | None => ""
               end).
Proof.
  apply (overlay_shows_first_greater (default_solver "first_and_last" 100) 4 4 grid100 1 3);
    [rect_by_evaluation | rewrite grid100_values; rect_by_evaluation | lia | lia].
Defined.

(** X13. Under the same condition, a cell of the overlay that is not
    terminal holds one arrow when some neighbor in the grid has a strictly
    greater value, whatever their number, and no arrow when none has; a
    terminal cell holds none. *)
Theorem overlay_arrow_count s n m a i j :
  rect n m (world s) → rect n m a → i < n → j < m →
  ∃ cell, overlay_at (add_arrows s a) (i, j) = Some cell
    ∧ count_arrows cell
      = if terminal (terminals s) n m (i, j) then 0
        else Nat.min 1 (greater_neighbors a n m (i, j)).
Proof.
  intros Hw Ha Hi Hj. eexists. split; [by apply (overlay_at_add_arrows s n m)|].
  rewrite (action_cell_first_greater s n m) by done.
  destruct (terminal (terminals s) n m (i, j)); [done|].
  rewrite greater_neighbors_filter, !filter_cons, filter_nil.
  unfold first_greater. simpl.
  destruct (greater a n m (i, j) Up), (greater a n m (i, j) Down),
    (greater a n m (i, j) Left), (greater a n m (i, j) Right);
    repeat case_decide; done.
Qed.

Lemma overlay_arrow_count_witness :
  ∃ cell, overlay_at (add_arrows (init (-1)%float (2, 2) 1%float 1e-5%float "last" 0) slope2)
            (0, 0) = Some cell
    ∧ count_arrows cell
      = if terminal (terminals (init (-1)%float (2, 2) 1%float 1e-5%float "last" 0)) 2 2 (0, 0)
        then 0 else Nat.min 1 (greater_neighbors slope2 2 2 (0, 0)).
Proof.
  apply (overlay_arrow_count (init (-1)%float (2, 2) 1%float 1e-5%float "last" 0) 2 2 slope2 0 0);
    [rect_by_evaluation | rect_by_evaluation | lia | lia].
Defined.

(** ** [main] *)

(** The solver that a run returns has made some number of sweeps. *)
Lemma calc_returns_sweeps fuel s n m w reported s' :
  rect n m (world s) →
  calc_mini_gridworld fuel s = Some (Return (w, reported), s') →
  w = world s' ∧ ∃ k, s' = sweeps k s.
Proof.
  intros Hw. destruct (decide (iterations s = 0%Z)) as [Hits|Hits].
  - intros (k & -> & -> & _)%calc_converged_count; [|done]. split; [done|by exists k].
  - unfold calc_mini_gridworld. rewrite bool_decide_eq_true_2 by done.
    rewrite (repeat_iterate_fixed s n m) by done.
    destruct (last _); [|done]. intros [= <- _ <-]. split; [done|]. by eexists.
Qed.

(** X14. Whenever [main] returns, in either mode, the grid that
    [calc_mini_gridworld] returned has shape [(4, 4)], the grid printed is
    that grid rounded to one decimal, and the diagram printed is the overlay
    of the grid before the rounding: ["G"] in the terminal cells and, in
    any other cell, the arrow of the first move (up, down, left, right) to a
    neighbor whose value, not rounded, is strictly greater, followed by a
    space, or nothing when no neighbor is greater. *)
Theorem main_diagram fuel term its reported shown diagram :
  main fuel term its = Some (Return (reported, shown, diagram)) →
  ∃ grid_world s',
    calc_mini_gridworld fuel (default_solver term its)
      = Some (Return (grid_world, reported), s')
    ∧ rect 4 4 grid_world
    ∧ shown = round_1 grid_world
    ∧ ∀ i j, i < 4 → j < 4 →
        overlay_at diagram (i, j)
        = Some (if terminal term 4 4 (i, j) then "G"
                else match first_greater grid_world 4 4 (i, j) with
                     | Some mv => (arrow mv ++ " ")%string
                     | None => ""
                     end).
Proof.
  unfold main.
  destruct (calc_mini_gridworld fuel (default_solver term its))
    as [[[[w p]|e] s']|] eqn:Hcalc; [|done..].
  intros [= <- <- <-]. exists w, s'. split; [done|].
  apply (calc_returns_sweeps _ _ 4 4) in Hcalc as [-> [k ->]]; [|apply rect_zeros].
  destruct (sweeps_rect k (default_solver term its) 4 4) as [Hr Hcfg]; [apply rect_zeros|].
  split; [done|]. split; [done|]. intros i j Hi Hj.
  rewrite (overlay_at_add_arrows _ 4 4), (action_cell_first_greater _ 4 4) by done.
  by rewrite Hcfg.
Qed.

Lemma main_diagram_witness :
  ∃ grid_world s',
    calc_mini_gridworld 0 (default_solver "first_and_last" 100)
      = Some (Return (grid_world, 100), s')
    ∧ rect 4 4 grid_world
    ∧ round_1 grid100 = round_1 grid_world
    ∧ ∀ i j, i < 4 → j < 4 →
        overlay_at (add_arrows (sweeps 100 (default_solver "first_and_last" 100)) grid100) (i, j)
        = Some (if terminal "first_and_last" 4 4 (i, j) then "G"
                else match first_greater grid_world 4 4 (i, j) with
                     | Some mv => (arrow mv ++ " ")%string
                     | None => ""
                     end).
Proof.
  apply (main_diagram 0 "first_and_last" 100 100 (round_1 grid100)
           (add_arrows (sweeps 100 (default_solver "first_and_last" 100)) grid100)).
  vm_compute. reflexivity.
Defined.

(** The second run of the notebook, as it is printed. The arrows come from
    the grid before the rounding: in the grid printed, the first greater
    neighbor of cell [(1, 2)] is the one below it, and the diagram points
    up. *)
Example main_second_run :
  main 0 "first_and_last" 100
  = Some (Return (100,
      [[0; -14; -20; -22]; [-14; -18; -20; -20];
       [-20; -20; -18; -14]; [-22; -20; -14; 0]]%float,
      [["G";  "< "; "< "; "v "];
       ["^ "; "^ "; "^ "; "v "];
       ["^ "; "^ "; "v "; "v "];
       ["^ "; "^ "; "> "; "G"]]))
  ∧ first_greater (round_1 grid100) 4 4 (1, 2) = Some Down
  ∧ first_greater grid100 4 4 (1, 2) = Some Up.
Proof. split; [vm_compute; reflexivity|]. rewrite grid100_values. split; reflexivity. Qed.
